(** * planegcs bindings: parameter store, geometry builders, property offsets

    A shallow embedding of

    - [GcsSystem] (build-bindings/templates/gcs_system.cpp.njk): the C++
      class that owns the solver parameters ([p_params], [is_fixed]), builds
      the geometry objects over them and calls the solver of its base class;
    - [get_property_offset] (sketch/geom_params.ts): the offset of a named
      property inside a geometry's block of parameters.

    C++ code is embedded in a state monad over the object's fields and the
    free store, with two ways to fail: a thrown exception (which carries the
    state at the throw) and undefined behaviour.  *)

From Stdlib Require Import ZArith Lia.
From stdpp Require Import base tactics option numbers list sorting gmap strings.

(** ** Integer types of the C++ side

    The bindings are compiled by Emscripten for wasm32: [int] is 32 bits,
    two's complement, and [size_t] is 32 bits, unsigned.  Integers are [Z];
    the conversions that the code leaves implicit are written out. *)
Module Cxx.

Definition INT_MIN : Z := (- 2 ^ 31)%Z.
Definition INT_MAX : Z := (2 ^ 31 - 1)%Z.
Definition SIZE_MAX : Z := (2 ^ 32 - 1)%Z.

(** The values an [int] argument can take. *)
Definition is_int (i : Z) : Prop := (INT_MIN ≤ i ≤ INT_MAX)%Z.

(** [int] to [size_t], as in [v[i]] and in [v.size() <= i]: modulo 2^32. *)
Definition to_size_t (i : Z) : Z := (i mod 2 ^ 32)%Z.

(** [size_t] to [int], as in [int index = v.size()]: modulo 2^32 into the
    signed range. *)
Definition to_int (n : Z) : Z := ((n + 2 ^ 31) mod 2 ^ 32 - 2 ^ 31)%Z.

(** [v[i]] of a [std::vector] with an [int] index: the index is converted to
    [size_type]; [None] stands for an access outside [0, size()), which
    [operator[]] does not check. *)
Definition vector_at {A : Type} (v : list A) (i : Z) : option A :=
  v !! Z.to_nat (to_size_t i).

(** The values [i] takes in [for (int i = 0; i < n; i += step)]. *)
Definition int_range (n step : nat) : list Z :=
  (λ j : nat, Z.of_nat (j * step)) <$> seq 0 ((n + step - 1) / step).

#[global] Instance is_int_dec i : Decision (is_int i).
Proof. unfold is_int. apply _. Defined.

End Cxx.

(** ** Property names and tables of the TypeScript side
    (sketch/geom_params.ts) *)
Module GeomParams.

(** The [type] tag of a [SketchGeometry]; one constructor per key of
    [property_offsets]. *)
Inductive GeometryType : Set :=
| point | circle | arc | ellipse | arc_of_ellipse | parabola
| arc_of_parabola | hyperbola | arc_of_hyperbola | bspline | line.

#[global] Instance GeometryType_eq_dec : EqDecision GeometryType.
Proof. solve_decision. Defined.

(** The tag as the string that the template literal interpolates. *)
Definition type_name (t : GeometryType) : string :=
  match t with
  | point => "point" | circle => "circle" | arc => "arc"
  | ellipse => "ellipse" | arc_of_ellipse => "arc_of_ellipse"
  | parabola => "parabola" | arc_of_parabola => "arc_of_parabola"
  | hyperbola => "hyperbola" | arc_of_hyperbola => "arc_of_hyperbola"
  | bspline => "bspline" | line => "line"
  end.

(** Modelled from the spec: the [SketchGeometry] union of
    sketch/sketch_primitive.ts, which is not among the sources.  Only what
    [get_property_offset] reads is kept: the tag and, read when the tag is
    [bspline], the three arrays that make up the shape of the instance
    (control points are ids of points, weights and knots are numbers). *)
Record SketchGeometry {number : Type} : Type := {
  type : GeometryType;
  control_points : list string;
  weights : list number;
  knots : list number
}.
Arguments SketchGeometry : clear implicits.

(** The union [SketchGeometryProperty]: the property names that the type of
    [property_key] declares. *)
Definition SketchGeometryProperty : list string :=
  [ "x"; "y"; "radius"; "start_angle"; "end_angle"; "radmin";
    "start_x"; "start_y"; "end_x"; "end_y" ].

(** [property_offsets.bspline.*], read by name in [get_property_offset]. *)
Definition bspline_start_x : nat := 0.
Definition bspline_start_y : nat := 1.
Definition bspline_end_x : nat := 2.
Definition bspline_end_y : nat := 3.

(** [property_offsets]: for each tag the own properties of its table. *)
Definition property_offsets (t : GeometryType) : gmap string nat :=
  match t with
  | point => {[ "x" := 0; "y" := 1 ]}
  | circle => {[ "radius" := 0 ]}
  | arc => {[ "start_angle" := 0; "end_angle" := 1; "radius" := 2 ]}
  | ellipse => {[ "radmin" := 0 ]}
  | arc_of_ellipse => {[ "start_angle" := 0; "end_angle" := 1; "radmin" := 2 ]}
  | parabola => ∅
  | arc_of_parabola => {[ "start_angle" := 0; "end_angle" := 1 ]}
  | hyperbola => {[ "radmin" := 0 ]}
  | arc_of_hyperbola => {[ "start_angle" := 0; "end_angle" := 1; "radmin" := 2 ]}
  | bspline =>
      {[ "start_x" := bspline_start_x; "start_y" := bspline_start_y;
         "end_x" := bspline_end_x; "end_y" := bspline_end_y ]}
  | line => ∅
  end.

(** What a property read can give: a number stored in a table, or a member
    that the table, an object literal, inherits from [Object.prototype]
    (a function, or the prototype itself for [__proto__]). *)
Inductive js_value : Set :=
| Number (n : nat)
| Inherited (name : string).

(** The names that every object literal inherits from [Object.prototype]. *)
Definition Object_prototype : list string :=
  [ "constructor"; "hasOwnProperty"; "isPrototypeOf"; "propertyIsEnumerable";
    "toLocaleString"; "toString"; "valueOf"; "__proto__";
    "__defineGetter__"; "__defineSetter__"; "__lookupGetter__";
    "__lookupSetter__" ].

(** [o[key]] on a table: own properties first, then the prototype; [None] is
    [undefined]. *)
Definition js_get (o : gmap string nat) (key : string) : option js_value :=
  match o !! key with
  | Some n => Some (Number n)
  | None => if decide (key ∈ Object_prototype) then Some (Inherited key) else None
  end.

(** [key] is a property that the table of [t] holds. *)
Definition addressable (t : GeometryType) (key : string) : Prop :=
  is_Some (property_offsets t !! key).

(** The B-spline of the README: control points, weights and knots. *)
Definition example_bspline : SketchGeometry Z :=
  {| type := bspline;
     control_points := ["cp1"; "cp2"; "cp3"; "cp4"];
     weights := [1; 1; 1; 1]%Z;
     knots := [0; 0; 0; 0; 1; 1; 1; 1]%Z |}.

(** A primitive of a kind without arrays. *)
Definition example_of (t : GeometryType) : SketchGeometry Z :=
  {| type := t; control_points := []; weights := []; knots := [] |}.

(** How a call ends: [return v] or [throw new Error(message)]. *)
Inductive completion : Set :=
| Return (v : js_value)
| ThrowError (message : string).

(** The message of the error thrown for an unknown property. *)
Definition unknown_property (property_key : string) (t : GeometryType) : string :=
  "Unknown property " +:+ property_key +:+ " for primitive <" +:+ type_name t +:+ ">".

Definition get_property_offset {number : Type}
    (primitive : SketchGeometry number) (property_key : string) : completion :=
  if decide (type primitive = bspline) then
    let base :=
      length (control_points primitive) * 2 +
      length (weights primitive) +
      length (knots primitive) in
    if decide (property_key = "start_x") then Return (Number (base + bspline_start_x))
    else if decide (property_key = "start_y") then Return (Number (base + bspline_start_y))
    else if decide (property_key = "end_x") then Return (Number (base + bspline_end_x))
    else if decide (property_key = "end_y") then Return (Number (base + bspline_end_y))
    else ThrowError (unknown_property property_key bspline)
  else
    (* every tag has a table, so the test [if (primitive_offsets)] holds *)
    let primitive_offsets := property_offsets (type primitive) in
    match js_get primitive_offsets property_key with
    | Some offset => Return offset
    | None => ThrowError (unknown_property property_key (type primitive))
    end.

End GeomParams.

(** ** The C++ class [GcsSystem]
    (build-bindings/templates/gcs_system.cpp.njk) *)

(** A [double*]: the address of a cell of the free store. *)
Abbreviation ptr := nat (only parsing).

Create HintDb pure.

(** The message of the exception of [p_param_or_fail]. *)
Definition index_outside_range : string := "parameter index outside range".

Section GcsSystem.

(** The code stores, copies and hands out [double] values and never computes
    with them: their type is left open. *)
Context {double : Type}.

(** *** Geometry objects

    Geo.h is not among the sources; the fields are those that the builders
    below assign, each a pointer to a parameter cell. *)
Record Point : Set := { Point_x : ptr; Point_y : ptr }.
Record Line : Set := { Line_p1 : Point; Line_p2 : Point }.
Record Circle : Set := { Circle_center : Point; Circle_rad : ptr }.
Record Ellipse : Set := {
  Ellipse_center : Point; Ellipse_focus1 : Point; Ellipse_radmin : ptr }.
Record Hyperbola : Set := {
  Hyperbola_center : Point; Hyperbola_focus1 : Point; Hyperbola_radmin : ptr }.
Record Parabola : Set := { Parabola_vertex : Point; Parabola_focus1 : Point }.
Record Arc : Set := {
  Arc_center : Point; Arc_start : Point; Arc_end : Point;
  Arc_startAngle : ptr; Arc_endAngle : ptr; Arc_rad : ptr }.
Record ArcOfEllipse : Set := {
  ArcOfEllipse_center : Point; ArcOfEllipse_focus1 : Point;
  ArcOfEllipse_start : Point; ArcOfEllipse_end : Point;
  ArcOfEllipse_startAngle : ptr; ArcOfEllipse_endAngle : ptr;
  ArcOfEllipse_radmin : ptr }.
Record ArcOfParabola : Set := {
  ArcOfParabola_vertex : Point; ArcOfParabola_focus1 : Point;
  ArcOfParabola_start : Point; ArcOfParabola_end : Point;
  ArcOfParabola_startAngle : ptr; ArcOfParabola_endAngle : ptr }.
Record ArcOfHyperbola : Set := {
  ArcOfHyperbola_center : Point; ArcOfHyperbola_focus1 : Point;
  ArcOfHyperbola_start : Point; ArcOfHyperbola_end : Point;
  ArcOfHyperbola_startAngle : ptr; ArcOfHyperbola_endAngle : ptr;
  ArcOfHyperbola_radmin : ptr }.
Record BSpline : Set := {
  BSpline_start : Point; BSpline_end : Point;
  BSpline_poles : list Point;
  BSpline_weights : list ptr;
  BSpline_knots : list ptr;
  BSpline_mult : list Z;
  BSpline_degree : Z;
  BSpline_periodic : bool }.

(** Modelled from the spec: a registered constraint of the base class
    [System] (GCS.h and the generated add_constraint functions are not among
    the sources).  Section 3 of the spec gives a constraint a tag and the
    modifiers [driving] and [temporary]. *)
Record Constraint : Set := {
  tag : Z;
  driving : bool;
  temporary : bool
}.

(** *** The object

    [clist] and [debugMode] belong to the base class [System]; [heap] is the
    free store that [new double] and [delete] work on; [console] is what
    [console.log] has printed. *)
Record GcsSystem : Type := {
  clist : list Constraint;
  debugMode : Z;
  heap : gmap nat double;
  p_params : list ptr;
  is_fixed : list bool;
  console : list string
}.

Definition set_clist (v : list Constraint) (s : GcsSystem) : GcsSystem :=
  {| clist := v; debugMode := debugMode s; heap := heap s;
     p_params := p_params s; is_fixed := is_fixed s; console := console s |}.
Definition set_heap (v : gmap nat double) (s : GcsSystem) : GcsSystem :=
  {| clist := clist s; debugMode := debugMode s; heap := v;
     p_params := p_params s; is_fixed := is_fixed s; console := console s |}.
Definition set_p_params (v : list ptr) (s : GcsSystem) : GcsSystem :=
  {| clist := clist s; debugMode := debugMode s; heap := heap s;
     p_params := v; is_fixed := is_fixed s; console := console s |}.
Definition set_is_fixed (v : list bool) (s : GcsSystem) : GcsSystem :=
  {| clist := clist s; debugMode := debugMode s; heap := heap s;
     p_params := p_params s; is_fixed := v; console := console s |}.
Definition set_console (v : list string) (s : GcsSystem) : GcsSystem :=
  {| clist := clist s; debugMode := debugMode s; heap := heap s;
     p_params := p_params s; is_fixed := is_fixed s; console := v |}.

(** *** Outcomes and the monad of member functions *)
Inductive Res (A : Type) : Type :=
| Ret (a : A) (s : GcsSystem)          (* normal return *)
| Throw (what : string) (s : GcsSystem) (* std::runtime_error(what) leaves the call *)
| Undefined.                            (* undefined behaviour *)
Arguments Ret {A} a s.
Arguments Throw {A} what s.
Arguments Undefined {A}.

Definition M (A : Type) : Type := GcsSystem → Res A.

Definition ret {A} (a : A) : M A := λ s, Ret a s.
Definition bind {A B} (m : M A) (k : A → M B) : M B :=
  λ s, match m s with
       | Ret a s' => k a s'
       | Throw what s' => Throw what s'
       | Undefined => Undefined
       end.
Definition throw {A} (what : string) : M A := λ s, Throw what s.
Definition undefined {A} : M A := λ _, Undefined.
Definition gets {A} (f : GcsSystem → A) : M A := λ s, Ret (f s) s.
Definition modify (f : GcsSystem → GcsSystem) : M unit := λ s, Ret tt (f s).
(** An access that is undefined when it has no value. *)
Definition defined {A} (o : option A) : M A :=
  match o with Some a => ret a | None => undefined end.

Notation "'let!' x := m 'in' k" := (bind m (λ x, k))
  (at level 10, x name, m at level 100, k at level 200).
Notation "m ;;; k" := (bind m (λ _, k))
  (at level 100, k at level 200, right associativity).

(** The body of a [for] loop run for each index in turn, threading the local
    variables [acc] that it updates. *)
Fixpoint for_each {B} (idx : list Z) (body : Z → B → M B) (acc : B) : M B :=
  match idx with
  | [] => ret acc
  | i :: rest => let! acc' := body i acc in for_each rest body acc'
  end.

(** [for (int i = 0; i < n; i += step) body], for [n] the [size()] of a
    vector that the body does not resize and [step] 1 or 2.  When
    [n + step - 1] exceeds [INT_MAX] the increment overflows before the test
    can fail, which is undefined. *)
Definition for_int {B} (n step : nat) (body : Z → B → M B) (acc : B) : M B :=
  if decide (Z.of_nat n + Z.of_nat step - 1 ≤ Cxx.INT_MAX)%Z
  then for_each (Cxx.int_range n step) body acc
  else undefined.

(** *** The free store *)

(** [new double(value)]: a cell at an address that is not in use. *)
Definition new_double (value : double) : M ptr :=
  λ s, let p := fresh (dom (heap s)) in Ret p (set_heap (<[p := value]> (heap s)) s).

(** [delete p]: undefined unless [p] is a live cell. *)
Definition delete_double (p : ptr) : M unit :=
  λ s, match heap s !! p with
       | Some _ => Ret tt (set_heap (delete p (heap s)) s)
       | None => Undefined
       end.

(** [*p] read and [*p = value]: undefined unless [p] is a live cell. *)
Definition load (p : ptr) : M double :=
  let! h := gets heap in defined (h !! p).
Definition store (p : ptr) (value : double) : M unit :=
  λ s, match heap s !! p with
       | Some _ => Ret tt (set_heap (<[p := value]> (heap s)) s)
       | None => Undefined
       end.

(** *** The parameter store *)

(** [GcsSystem() : System()]: two empty vectors.  The fields of the base
    class are those of a fresh [System]: no constraint; [debug] is its
    initial debug mode. *)
Definition GcsSystem_new (debug : Z) : GcsSystem :=
  {| clist := []; debugMode := debug; heap := ∅;
     p_params := []; is_fixed := []; console := [] |}.

Definition params_size : M Z :=
  gets (λ s, Cxx.to_int (Z.of_nat (length (p_params s)))).

Definition get_p_param (i : Z) : M double :=
  let! v := gets p_params in
  let! p := defined (Cxx.vector_at v i) in
  load p.

Definition set_p_param (i : Z) (value : double) (fixed : bool) : M unit :=
  let! v := gets p_params in
  let! p := defined (Cxx.vector_at v i) in
  store p value ;;;
  let! f := gets is_fixed in
  defined (Cxx.vector_at f i) ;;;
  modify (set_is_fixed (<[Z.to_nat (Cxx.to_size_t i) := fixed]> f)).

Definition push_p_param (value : double) (fixed : bool) : M Z :=
  let! index := gets (λ s, Cxx.to_int (Z.of_nat (length (p_params s)))) in
  let! p := new_double value in
  modify (λ s, set_p_params (p_params s ++ [p]) s) ;;;
  modify (λ s, set_is_fixed (is_fixed s ++ [fixed]) s) ;;;
  ret index.

Definition get_is_fixed (i : Z) : M bool :=
  let! f := gets is_fixed in
  defined (Cxx.vector_at f i).

Definition get_p_params : M (list double) :=
  let! n := gets (λ s, length (p_params s)) in
  for_int n 1 (λ i p,
    let! v := gets p_params in
    let! q := defined (Cxx.vector_at v i) in
    let! d := load q in
    ret (p ++ [d])) [].

(** Modelled from the spec: [System::clear()] of the base class (GCS.cpp is
    not among the sources) drops every registered constraint. *)
Definition System_clear : M unit := modify (set_clist []).

Definition clear_data : M unit :=
  let! n := gets (λ s, length (p_params s)) in
  for_int n 1 (λ i _,
    let! v := gets p_params in
    let! q := defined (Cxx.vector_at v i) in
    delete_double q) tt ;;;
  modify (set_p_params []) ;;;
  modify (set_is_fixed []) ;;;
  System_clear.

(** *** Geometry builders *)

Definition p_param_or_fail (i : Z) : M ptr :=
  let! v := gets p_params in
  if decide (Z.of_nat (length v) ≤ Cxx.to_size_t i)%Z
  then throw index_outside_range
  else defined (Cxx.vector_at v i).

Definition make_point (px_i py_i : Z) : M Point :=
  let! x := p_param_or_fail px_i in
  let! y := p_param_or_fail py_i in
  ret {| Point_x := x; Point_y := y |}.

Definition make_line (p1x_i p1y_i p2x_i p2y_i : Z) : M Line :=
  let! p1 := make_point p1x_i p1y_i in
  let! p2 := make_point p2x_i p2y_i in
  ret {| Line_p1 := p1; Line_p2 := p2 |}.

Definition make_circle (cx_i cy_i rad_i : Z) : M Circle :=
  let! cp := make_point cx_i cy_i in
  let! rad := p_param_or_fail rad_i in
  ret {| Circle_center := cp; Circle_rad := rad |}.

Definition make_ellipse (cx_i cy_i focus1x_i focus1y_i radmin_i : Z) : M Ellipse :=
  let! center := make_point cx_i cy_i in
  let! focus1 := make_point focus1x_i focus1y_i in
  let! radmin := p_param_or_fail radmin_i in
  ret {| Ellipse_center := center; Ellipse_focus1 := focus1;
         Ellipse_radmin := radmin |}.

Definition make_hyperbola (cx_i cy_i focus1x_i focus1y_i radmin_i : Z) : M Hyperbola :=
  let! center := make_point cx_i cy_i in
  let! focus1 := make_point focus1x_i focus1y_i in
  let! radmin := p_param_or_fail radmin_i in
  ret {| Hyperbola_center := center; Hyperbola_focus1 := focus1;
         Hyperbola_radmin := radmin |}.

Definition make_parabola (vertexx_i vertexy_i focus1x_i focus1y_i : Z) : M Parabola :=
  let! focus1 := make_point focus1x_i focus1y_i in
  let! vertex := make_point vertexx_i vertexy_i in
  ret {| Parabola_vertex := vertex; Parabola_focus1 := focus1 |}.

Definition make_arc
    (cx_i cy_i startx_i starty_i endx_i endy_i startangle_i endangle_i rad_i : Z)
    : M Arc :=
  let! c := make_point cx_i cy_i in
  let! start := make_point startx_i starty_i in
  let! end_ := make_point endx_i endy_i in
  let! startAngle := p_param_or_fail startangle_i in
  let! endAngle := p_param_or_fail endangle_i in
  let! rad := p_param_or_fail rad_i in
  ret {| Arc_center := c; Arc_start := start; Arc_end := end_;
         Arc_startAngle := startAngle; Arc_endAngle := endAngle;
         Arc_rad := rad |}.

Definition make_arc_of_ellipse
    (cx_i cy_i focus1x_i focus1y_i startx_i starty_i endx_i endy_i
     startangle_i endangle_i radmin_i : Z) : M ArcOfEllipse :=
  let! center := make_point cx_i cy_i in
  let! start := make_point startx_i starty_i in
  let! startAngle := p_param_or_fail startangle_i in
  let! end_ := make_point endx_i endy_i in
  let! endAngle := p_param_or_fail endangle_i in
  let! radmin := p_param_or_fail radmin_i in
  let! focus1 := make_point focus1x_i focus1y_i in
  ret {| ArcOfEllipse_center := center; ArcOfEllipse_focus1 := focus1;
         ArcOfEllipse_start := start; ArcOfEllipse_end := end_;
         ArcOfEllipse_startAngle := startAngle;
         ArcOfEllipse_endAngle := endAngle;
         ArcOfEllipse_radmin := radmin |}.

Definition make_arc_of_parabola
    (vertexx_i vertexy_i focusx_i focusy_i startx_i starty_i endx_i endy_i
     startangle_i endangle_i : Z) : M ArcOfParabola :=
  let! start := make_point startx_i starty_i in
  let! startAngle := p_param_or_fail startangle_i in
  let! end_ := make_point endx_i endy_i in
  let! endAngle := p_param_or_fail endangle_i in
  let! focus1 := make_point focusx_i focusy_i in
  let! vertex := make_point vertexx_i vertexy_i in
  ret {| ArcOfParabola_vertex := vertex; ArcOfParabola_focus1 := focus1;
         ArcOfParabola_start := start; ArcOfParabola_end := end_;
         ArcOfParabola_startAngle := startAngle;
         ArcOfParabola_endAngle := endAngle |}.

Definition make_arc_of_hyperbola
    (cx_i cy_i focus1x_i focus1y_i startx_i starty_i endx_i endy_i
     startangle_i endangle_i radmin_i : Z) : M ArcOfHyperbola :=
  let! center := make_point cx_i cy_i in
  let! start := make_point startx_i starty_i in
  let! startAngle := p_param_or_fail startangle_i in
  let! end_ := make_point endx_i endy_i in
  let! endAngle := p_param_or_fail endangle_i in
  let! radmin := p_param_or_fail radmin_i in
  let! focus1 := make_point focus1x_i focus1y_i in
  ret {| ArcOfHyperbola_center := center; ArcOfHyperbola_focus1 := focus1;
         ArcOfHyperbola_start := start; ArcOfHyperbola_end := end_;
         ArcOfHyperbola_startAngle := startAngle;
         ArcOfHyperbola_endAngle := endAngle;
         ArcOfHyperbola_radmin := radmin |}.

(** The three loops of [make_bspline]; the vectors are arguments passed by
    value, so their sizes are fixed. *)
Definition bspline_poles (poles_xy_i : list Z) : M (list Point) :=
  for_int (length poles_xy_i) 2 (λ i poles,
    let! a := defined (Cxx.vector_at poles_xy_i i) in
    let! b := defined (Cxx.vector_at poles_xy_i (i + 1)) in
    let! p := make_point a b in
    ret (poles ++ [p])) [].

Definition bspline_params (params_i : list Z) : M (list ptr) :=
  for_int (length params_i) 1 (λ i params,
    let! a := defined (Cxx.vector_at params_i i) in
    let! p := p_param_or_fail a in
    ret (params ++ [p])) [].

Definition make_bspline
    (startx_i starty_i endx_i endy_i : Z) (poles_xy_i weights_i knots_i mult : list Z)
    (degree : Z) (periodic : bool) : M BSpline :=
  let! start := make_point startx_i starty_i in
  let! end_ := make_point endx_i endy_i in
  let! poles := bspline_poles poles_xy_i in
  let! weights := bspline_params weights_i in
  let! knots := bspline_params knots_i in
  ret {| BSpline_start := start; BSpline_end := end_;
         BSpline_poles := poles; BSpline_weights := weights;
         BSpline_knots := knots; BSpline_mult := mult;
         BSpline_degree := degree; BSpline_periodic := periodic |}.

(** The make_<geometry> functions that the class binds, as one call with its
    arguments, and what a call returns. *)
Inductive make_call : Set :=
| call_make_point (px_i py_i : Z)
| call_make_line (p1x_i p1y_i p2x_i p2y_i : Z)
| call_make_circle (cx_i cy_i rad_i : Z)
| call_make_ellipse (cx_i cy_i focus1x_i focus1y_i radmin_i : Z)
| call_make_hyperbola (cx_i cy_i focus1x_i focus1y_i radmin_i : Z)
| call_make_parabola (vertexx_i vertexy_i focus1x_i focus1y_i : Z)
| call_make_arc
    (cx_i cy_i startx_i starty_i endx_i endy_i startangle_i endangle_i rad_i : Z)
| call_make_arc_of_ellipse
    (cx_i cy_i focus1x_i focus1y_i startx_i starty_i endx_i endy_i
     startangle_i endangle_i radmin_i : Z)
| call_make_arc_of_parabola
    (vertexx_i vertexy_i focusx_i focusy_i startx_i starty_i endx_i endy_i
     startangle_i endangle_i : Z)
| call_make_arc_of_hyperbola
    (cx_i cy_i focus1x_i focus1y_i startx_i starty_i endx_i endy_i
     startangle_i endangle_i radmin_i : Z)
| call_make_bspline
    (startx_i starty_i endx_i endy_i : Z) (poles_xy_i weights_i knots_i mult : list Z)
    (degree : Z) (periodic : bool).

Inductive geometry : Set :=
| a_Point (g : Point) | a_Line (g : Line) | a_Circle (g : Circle)
| an_Ellipse (g : Ellipse) | a_Hyperbola (g : Hyperbola)
| a_Parabola (g : Parabola) | an_Arc (g : Arc)
| an_ArcOfEllipse (g : ArcOfEllipse) | an_ArcOfParabola (g : ArcOfParabola)
| an_ArcOfHyperbola (g : ArcOfHyperbola) | a_BSpline (g : BSpline).

Definition fmap_M {A B} (f : A → B) (m : M A) : M B :=
  let! a := m in ret (f a).

Definition make (c : make_call) : M geometry :=
  match c with
  | call_make_point a b => fmap_M a_Point (make_point a b)
  | call_make_line a b c d => fmap_M a_Line (make_line a b c d)
  | call_make_circle a b c => fmap_M a_Circle (make_circle a b c)
  | call_make_ellipse a b c d e => fmap_M an_Ellipse (make_ellipse a b c d e)
  | call_make_hyperbola a b c d e => fmap_M a_Hyperbola (make_hyperbola a b c d e)
  | call_make_parabola a b c d => fmap_M a_Parabola (make_parabola a b c d)
  | call_make_arc a b c d e f g h i => fmap_M an_Arc (make_arc a b c d e f g h i)
  | call_make_arc_of_ellipse a b c d e f g h i j k =>
      fmap_M an_ArcOfEllipse (make_arc_of_ellipse a b c d e f g h i j k)
  | call_make_arc_of_parabola a b c d e f g h i j =>
      fmap_M an_ArcOfParabola (make_arc_of_parabola a b c d e f g h i j)
  | call_make_arc_of_hyperbola a b c d e f g h i j k =>
      fmap_M an_ArcOfHyperbola (make_arc_of_hyperbola a b c d e f g h i j k)
  | call_make_bspline a b c d ps ws ks mult degree periodic =>
      fmap_M a_BSpline (make_bspline a b c d ps ws ks mult degree periodic)
  end.

(** The parameter indices that a call passes. *)
Definition indices (c : make_call) : list Z :=
  match c with
  | call_make_point a b => [a; b]
  | call_make_line a b c d => [a; b; c; d]
  | call_make_circle a b c => [a; b; c]
  | call_make_ellipse a b c d e => [a; b; c; d; e]
  | call_make_hyperbola a b c d e => [a; b; c; d; e]
  | call_make_parabola a b c d => [a; b; c; d]
  | call_make_arc a b c d e f g h i => [a; b; c; d; e; f; g; h; i]
  | call_make_arc_of_ellipse a b c d e f g h i j k => [a; b; c; d; e; f; g; h; i; j; k]
  | call_make_arc_of_parabola a b c d e f g h i j => [a; b; c; d; e; f; g; h; i; j]
  | call_make_arc_of_hyperbola a b c d e f g h i j k => [a; b; c; d; e; f; g; h; i; j; k]
  | call_make_bspline a b c d ps ws ks _ _ _ => [a; b; c; d] ++ ps ++ ws ++ ks
  end.

(** The vector of pole indices of a call ([[]] when it has none). *)
Definition poles_of (c : make_call) : list Z :=
  match c with
  | call_make_bspline _ _ _ _ ps _ _ _ _ _ => ps
  | _ => []
  end.

(** *** The builders as the compiled code runs them

    By the rules of the language the read [poles_xy_i[i + 1]] of the last
    turn of the loop over an odd number of pole indices is undefined, and
    [make_bspline] above says so.  The compiled [operator[]] is a load with
    no test: one past the last element it yields the [int] that lies behind
    the elements of the vector, whatever it is.  Below [over] is that
    [int], and the loop goes on with it. *)
Definition bspline_poles_reading (over : Z) (poles_xy_i : list Z) : M (list Point) :=
  for_int (length poles_xy_i) 2 (λ i poles,
    let! a := defined (Cxx.vector_at poles_xy_i i) in
    let! b := ret (default over (Cxx.vector_at poles_xy_i (i + 1))) in
    let! p := make_point a b in
    ret (poles ++ [p])) [].

Definition make_bspline_reading (over : Z)
    (startx_i starty_i endx_i endy_i : Z) (poles_xy_i weights_i knots_i mult : list Z)
    (degree : Z) (periodic : bool) : M BSpline :=
  let! start := make_point startx_i starty_i in
  let! end_ := make_point endx_i endy_i in
  let! poles := bspline_poles_reading over poles_xy_i in
  let! weights := bspline_params weights_i in
  let! knots := bspline_params knots_i in
  ret {| BSpline_start := start; BSpline_end := end_;
         BSpline_poles := poles; BSpline_weights := weights;
         BSpline_knots := knots; BSpline_mult := mult;
         BSpline_degree := degree; BSpline_periodic := periodic |}.

(** The other builders read no vector: they are as above. *)
Definition make_reading (over : Z) (c : make_call) : M geometry :=
  match c with
  | call_make_bspline a b c d ps ws ks mult degree periodic =>
      fmap_M a_BSpline
        (make_bspline_reading over a b c d ps ws ks mult degree periodic)
  | _ => make c
  end.

(** The pole indices that the loop reads: those passed, and [over] after
    them when they are in odd number. *)
Definition padded (over : Z) (poles_xy_i : list Z) : list Z :=
  if Nat.even (length poles_xy_i) then poles_xy_i else poles_xy_i ++ [over].

(** *** Solving *)

(** The enumerators of GCS.h that [solve_system] names; the header is not
    among the sources, so their values are left open. *)
Context (DogLeg LevenbergMarquardt BFGS IterationLevel : Z).

(** [EM_ASM({ console.log(line); })] *)
Definition console_log (line : string) : M unit :=
  modify (λ s, set_console (console s ++ [line]) s).

Definition newline : string := String (Ascii.ascii_of_nat 10) "".

(** [solve] is the member [System::solve(VEC_pD&, bool, Algorithm)] of the
    base class.  The cast of [algorithm] to the enumeration keeps its
    value. *)
Definition solve_system (solve : list ptr → bool → Z → M Z) (algorithm : Z) : M Z :=
  let alg := algorithm in
  let! n := gets (λ s, length (p_params s)) in
  let! solved_p_params :=
    for_int n 1 (λ i solved_p_params,
      let! f := gets is_fixed in
      let! fixed := defined (Cxx.vector_at f i) in
      if negb fixed then
        let! v := gets p_params in
        let! p := defined (Cxx.vector_at v i) in
        ret (solved_p_params ++ [p])
      else ret solved_p_params) [] in
  let! mode := gets debugMode in
  (if decide (mode = IterationLevel) then
     if decide (alg = DogLeg) then
       console_log ("Solving with DogLeg" +:+ newline)
     else if decide (alg = LevenbergMarquardt) then
       console_log ("Solving with LevenbergMarquardt" +:+ newline)
     else if decide (alg = BFGS) then
       console_log ("Solving with BFGS" +:+ newline)
     else ret tt
   else ret tt) ;;;
  solve solved_p_params true alg.

(** The algorithm that a solve runs: the one asked for, or sequential
    quadratic programming. *)
Inductive solver_algorithm : Set :=
| Requested (alg : Z)
| SQP.

(** Modelled from the spec: [System::solve] of the base class (GCS.cpp is not
    among the sources).  Section 4.5: "if any registered constraint has
    temporary = true, the effective algorithm is unconditionally overridden
    to a sequential-quadratic-programming variant, irrespective of the
    hint".  [run] is the numerical solver. *)
Definition effective_algorithm (constraints : list Constraint) (hint : Z)
    : solver_algorithm :=
  if existsb temporary constraints then SQP else Requested hint.

Definition System_solve (run : solver_algorithm → list ptr → M Z)
    (plist : list ptr) (isFine : bool) (alg : Z) : M Z :=
  let! constraints := gets clist in
  run (effective_algorithm constraints alg) plist.

(** Modelled from the spec: registering a constraint (the generated
    add_constraint functions are not among the sources) adds it to the
    constraints of the base class. *)
Definition add_constraint (c : Constraint) : M unit :=
  modify (λ s, set_clist (clist s ++ [c]) s).

(** *** Calls of the parameter API, to state what holds after any sequence
    of them *)
Inductive store_call : Type :=
| call_push_p_param (value : double) (fixed : bool)
| call_set_p_param (i : Z) (value : double) (fixed : bool)
| call_clear_data.

Definition store_step (c : store_call) : M unit :=
  match c with
  | call_push_p_param value fixed => push_p_param value fixed ;;; ret tt
  | call_set_p_param i value fixed => set_p_param i value fixed
  | call_clear_data => clear_data
  end.

Fixpoint store_run (cs : list store_call) : M unit :=
  match cs with
  | [] => ret tt
  | c :: rest => store_step c ;;; store_run rest
  end.

(** *** Vocabulary of the statements *)

(** [i] is the index of a parameter of the store. *)
Definition allocated (s : GcsSystem) (i : Z) : Prop :=
  (0 ≤ i < Z.of_nat (length (p_params s)))%Z.

(** [p_params.size()] is a value of [int]; on wasm32, where a vector of
    pointers holds fewer than 2^30 of them, it always is. *)
Definition size_fits_int (s : GcsSystem) : Prop :=
  (Z.of_nat (length (p_params s)) ≤ Cxx.INT_MAX)%Z.

(** The two vectors go together, and every parameter has a live cell of its
    own. *)
Definition store_ok (s : GcsSystem) : Prop :=
  length (is_fixed s) = length (p_params s) ∧
  NoDup (p_params s) ∧
  Forall (λ p, is_Some (heap s !! p)) (p_params s).

(** The cell of the parameter of index [i], if there is one. *)
Definition param_ptr (s : GcsSystem) (i : Z) : option ptr :=
  if decide (0 ≤ i)%Z then p_params s !! Z.to_nat i else None.

(** The point over the parameters of indices [px_i] and [py_i]. *)
Definition point_at (s : GcsSystem) (px_i py_i : Z) : option Point :=
  x ← param_ptr s px_i; y ← param_ptr s py_i;
  Some {| Point_x := x; Point_y := y |}.

(** The indices of the parameters that are not fixed, in increasing order. *)
Definition free_indices (s : GcsSystem) : list nat :=
  filter (λ i, is_fixed s !! i = Some false) (seq 0 (length (p_params s))).

(** Their cells, in the same order. *)
Definition free_params (s : GcsSystem) : list ptr :=
  omap (λ i, p_params s !! i) (free_indices s).

(** [s'] has the parameters, flags, cells and constraints of [s]. *)
Definition same_store (s s' : GcsSystem) : Prop :=
  p_params s' = p_params s ∧ is_fixed s' = is_fixed s ∧
  heap s' = heap s ∧ clist s' = clist s.

(** The object after [push_p_param(v0, false)] and [push_p_param(v1, true)]
    on a new one whose debug mode is [debug]. *)
Definition two_parameters (debug : Z) (v0 v1 : double) : GcsSystem :=
  {| clist := []; debugMode := debug; heap := {[ 0 := v0; 1 := v1 ]};
     p_params := [0; 1]; is_fixed := [false; true]; console := [] |}.

(** A call of the parameter API that stays within the store. *)
Definition store_call_ok (s : GcsSystem) (c : store_call) : Prop :=
  match c with
  | call_set_p_param i _ _ => Cxx.is_int i ∧ allocated s i
  | _ => True
  end.

(** What a builder does with a view of the store: it returns the view, or
    throws when there is none; the state stays as found. *)
Definition checked {A} (view : option A) : M A :=
  λ s, match view with
       | Some a => Ret a s
       | None => Throw index_outside_range s
       end.

(** [m] returns with the state as found when [P] holds and throws the
    exception of [p_param_or_fail], with the state as found, when not. *)
Definition guarded {A} (P : Prop) (m : M A) (s : GcsSystem) : Prop :=
  (P → ∃ a, m s = Ret a s) ∧ (¬ P → m s = Throw index_outside_range s).

(** [m] leaves the state as found, whether it returns or throws. *)
Definition pure {A} (m : M A) : Prop :=
  ∀ s, match m s with
       | Ret _ s' => s' = s
       | Throw _ s' => s' = s
       | Undefined => True
       end.

(** The arguments of a call are values of [int], and there are no more of
    them than an [int] counts. *)
Definition call_fits_int (c : make_call) : Prop :=
  Forall Cxx.is_int (indices c) ∧
  (Z.of_nat (length (indices c)) ≤ Cxx.INT_MAX)%Z.

(** The pole indices two by two, as x and y. *)
Fixpoint pole_pairs (poles_xy_i : list Z) : list (Z * Z) :=
  match poles_xy_i with
  | a :: b :: rest => (a, b) :: pole_pairs rest
  | _ => []
  end.

(** The loop over the poles by recursion on what is left of the vector: a
    single index left is read as a pair, past the end. *)
Fixpoint poles_from (s : GcsSystem) (rest : list Z) (poles : list Point)
    : Res (list Point) :=
  match rest with
  | [] => Ret poles s
  | [_] => Undefined
  | a :: b :: rest' =>
      match point_at s a b with
      | Some p => poles_from s rest' (poles ++ [p])
      | None => Throw index_outside_range s
      end
  end.

(** Every call of a sequence stays within the store that it finds. *)
Fixpoint store_calls_ok (cs : list store_call) (s : GcsSystem) : Prop :=
  match cs with
  | [] => True
  | c :: rest =>
      store_call_ok s c ∧ size_fits_int s ∧
      ∀ s1, store_step c s = Ret tt s1 → store_calls_ok rest s1
  end.

#[local] Instance allocated_dec s i : Decision (allocated s i).
Proof. unfold allocated. apply _. Defined.

(** *** Facts: integer conversions *)

Lemma to_size_t_nonneg i : (0 ≤ i ≤ Cxx.SIZE_MAX)%Z → Cxx.to_size_t i = i.
Proof.
  unfold Cxx.to_size_t, Cxx.SIZE_MAX. intros Hi. apply Z.mod_small. lia.
Qed.

Lemma to_size_t_negative i :
  (Cxx.INT_MIN ≤ i < 0)%Z → Cxx.to_size_t i = (i + 2 ^ 32)%Z.
Proof.
  unfold Cxx.to_size_t, Cxx.INT_MIN. intros Hi.
  symmetry. apply Z.mod_unique with (q := (-1)%Z); lia.
Qed.

Lemma to_int_fits n : (0 ≤ n ≤ Cxx.INT_MAX)%Z → Cxx.to_int n = n.
Proof.
  unfold Cxx.to_int, Cxx.INT_MAX. intros Hn.
  rewrite Z.mod_small by lia. lia.
Qed.

Lemma vector_at_nat {A} (v : list A) (i : nat) :
  (Z.of_nat i ≤ Cxx.SIZE_MAX)%Z → Cxx.vector_at v (Z.of_nat i) = v !! i.
Proof.
  intros Hi. unfold Cxx.vector_at. rewrite to_size_t_nonneg by lia.
  by rewrite Nat2Z.id.
Qed.

(** An [int] that is no index of a vector whose size fits [int] reads
    outside the vector, whatever its sign. *)
Lemma vector_at_outside {A} (v : list A) (i : Z) :
  Cxx.is_int i → (Z.of_nat (length v) ≤ Cxx.INT_MAX)%Z →
  ¬ (0 ≤ i < Z.of_nat (length v))%Z →
  Cxx.vector_at v i = None ∧ (Z.of_nat (length v) ≤ Cxx.to_size_t i)%Z.
Proof.
  unfold Cxx.is_int, Cxx.INT_MIN, Cxx.INT_MAX. intros Hi Hv Hout.
  assert (Hle : (Z.of_nat (length v) ≤ Cxx.to_size_t i)%Z).
  { destruct (decide (i < 0)%Z).
    - rewrite to_size_t_negative by (unfold Cxx.INT_MIN; lia). lia.
    - rewrite to_size_t_nonneg by (unfold Cxx.SIZE_MAX; lia). lia. }
  split; [|done]. unfold Cxx.vector_at. apply lookup_ge_None. lia.
Qed.

Lemma vector_at_inside {A} (v : list A) (i : Z) :
  (Z.of_nat (length v) ≤ Cxx.INT_MAX)%Z → (0 ≤ i < Z.of_nat (length v))%Z →
  Cxx.vector_at v i = v !! Z.to_nat i ∧ is_Some (v !! Z.to_nat i) ∧
  ¬ (Z.of_nat (length v) ≤ Cxx.to_size_t i)%Z.
Proof.
  unfold Cxx.INT_MAX. intros Hv Hi.
  assert (Cxx.to_size_t i = i) as Heq
    by (apply to_size_t_nonneg; unfold Cxx.SIZE_MAX; lia).
  unfold Cxx.vector_at. rewrite Heq. split_and!; [done| |lia].
  apply lookup_lt_is_Some. lia.
Qed.

Lemma int_range_1 n : Cxx.int_range n 1 = Z.of_nat <$> seq 0 n.
Proof.
  unfold Cxx.int_range. replace (n + 1 - 1) with n by lia.
  rewrite Nat.div_1_r. apply list_fmap_ext. intros _ j _. f_equal. lia.
Qed.

Lemma param_ptr_allocated s i : is_Some (param_ptr s i) ↔ allocated s i.
Proof.
  unfold param_ptr, allocated. case_decide.
  - rewrite lookup_lt_is_Some. lia.
  - split; [by intros [? ?]|lia].
Qed.

Lemma param_ptr_None s i : param_ptr s i = None ↔ ¬ allocated s i.
Proof. rewrite <- param_ptr_allocated, eq_None_not_Some. done. Qed.

(** *** Facts: running the monad *)

Lemma bind_Ret {A B} (m : M A) (k : A → M B) s a s' :
  m s = Ret a s' → bind m k s = k a s'.
Proof. unfold bind. by intros ->. Qed.

Lemma bind_Throw {A B} (m : M A) (k : A → M B) s what s' :
  m s = Throw what s' → bind m k s = Throw what s'.
Proof. unfold bind. by intros ->. Qed.

Lemma bind_Undefined {A B} (m : M A) (k : A → M B) s :
  m s = Undefined → bind m k s = Undefined.
Proof. unfold bind. by intros ->. Qed.

Lemma bind_ret {A B} (a : A) (k : A → M B) s : bind (ret a) k s = k a s.
Proof. reflexivity. Qed.

Lemma bind_gets {A B} (f : GcsSystem → A) (k : A → M B) s :
  bind (gets f) k s = k (f s) s.
Proof. reflexivity. Qed.

Lemma bind_modify {B} (f : GcsSystem → GcsSystem) (k : unit → M B) s :
  bind (modify f) k s = k tt (f s).
Proof. reflexivity. Qed.

Lemma bind_defined {A B} (o : option A) (k : A → M B) s :
  bind (defined o) k s = match o with Some a => k a s | None => Undefined end.
Proof. by destruct o. Qed.

Lemma bind_assoc {A B C} (m : M A) (k : A → M B) (k' : B → M C) s :
  bind (bind m k) k' s = bind m (λ a, bind (k a) k') s.
Proof. unfold bind. by destruct (m s). Qed.

(** Whatever a call of [bind m k] returns or throws, [m] returned first or
    threw it. *)
Lemma bind_inv_Ret {A B} (m : M A) (k : A → M B) s b s' :
  bind m k s = Ret b s' → ∃ a s1, m s = Ret a s1 ∧ k a s1 = Ret b s'.
Proof. unfold bind. destruct (m s); [eauto|done..]. Qed.

Ltac mrun :=
  repeat first
    [ rewrite bind_assoc | rewrite bind_gets | rewrite bind_ret
    | rewrite bind_modify | rewrite bind_defined ].

(** *** Facts: the parameter store *)

Lemma store_ok_new debug : store_ok (GcsSystem_new debug).
Proof. split_and!; [done|constructor|constructor]. Qed.

(** [push_p_param] always returns; this is the state it leaves. *)
Lemma push_p_param_run s value fixed :
  push_p_param value fixed s =
  Ret (Cxx.to_int (Z.of_nat (length (p_params s))))
      {| clist := clist s; debugMode := debugMode s;
         heap := <[fresh (dom (heap s)) := value]> (heap s);
         p_params := p_params s ++ [fresh (dom (heap s))];
         is_fixed := is_fixed s ++ [fixed]; console := console s |}.
Proof. reflexivity. Qed.

Lemma fresh_cell_unused (h : gmap nat double) : h !! fresh (dom h) = None.
Proof. apply not_elem_of_dom, is_fresh. Qed.

Lemma push_p_param_ok s value fixed index s' :
  store_ok s → push_p_param value fixed s = Ret index s' → store_ok s'.
Proof.
  intros (Hlen & Hnd & Hlive). rewrite push_p_param_run. intros [= <- <-].
  pose proof (fresh_cell_unused (heap s)) as Hfresh.
  split_and!; simpl.
  - rewrite !length_app, Hlen. done.
  - apply NoDup_app. split_and!; [done| |apply NoDup_singleton].
    intros p Hp ->%list_elem_of_singleton.
    rewrite Forall_forall in Hlive. apply Hlive in Hp as [? Hp]. congruence.
  - apply Forall_app. split.
    + eapply Forall_impl; [exact Hlive|]. intros p [d Hd]. simpl.
      destruct (decide (fresh (dom (heap s)) = p)) as [<-|Hne]; [congruence|].
      rewrite lookup_insert_ne by done. eauto.
    + constructor; [|constructor]. rewrite lookup_insert_eq. eauto.
Qed.

(** What [set_p_param] does, case by case. *)
Lemma set_p_param_unfold s i value fixed :
  set_p_param i value fixed s =
  match Cxx.vector_at (p_params s) i with
  | Some p =>
      match heap s !! p with
      | Some _ =>
          match Cxx.vector_at (is_fixed s) i with
          | Some _ =>
              Ret tt {| clist := clist s; debugMode := debugMode s;
                        heap := <[p := value]> (heap s);
                        p_params := p_params s;
                        is_fixed := <[Z.to_nat (Cxx.to_size_t i) := fixed]> (is_fixed s);
                        console := console s |}
          | None => Undefined
          end
      | None => Undefined
      end
  | None => Undefined
  end.
Proof.
  unfold set_p_param. mrun.
  destruct (Cxx.vector_at (p_params s) i) as [p|]; [|done].
  unfold store at 1. unfold bind at 1.
  destruct (heap s !! p) as [d|]; [|done]. mrun. simpl.
  destruct (Cxx.vector_at (is_fixed s) i) as [f|]; done.
Qed.

(** [set_p_param] on a parameter of the store returns; this is the state it
    leaves. *)
Lemma set_p_param_run s i value fixed :
  store_ok s → size_fits_int s → allocated s i →
  ∃ p, p_params s !! Z.to_nat i = Some p ∧
    set_p_param i value fixed s =
    Ret tt {| clist := clist s; debugMode := debugMode s;
              heap := <[p := value]> (heap s);
              p_params := p_params s;
              is_fixed := <[Z.to_nat i := fixed]> (is_fixed s);
              console := console s |}.
Proof.
  intros (Hlen & Hnd & Hlive) Hs Hi.
  destruct (vector_at_inside (p_params s) i Hs Hi) as (Hp & [p Hp'] & _).
  destruct (vector_at_inside (is_fixed s) i) as (Hf & [f Hf'] & _);
    [rewrite Hlen; done..|].
  exists p. split; [done|].
  assert (is_Some (heap s !! p)) as [d Hd].
  { rewrite Forall_forall in Hlive. apply Hlive.
    eapply list_elem_of_lookup_2, Hp'. }
  rewrite set_p_param_unfold, Hp, Hp', Hd, Hf, Hf'.
  rewrite to_size_t_nonneg; [done|].
  unfold allocated, size_fits_int, Cxx.INT_MAX, Cxx.SIZE_MAX in *. lia.
Qed.

Lemma set_p_param_ok s i value fixed s' :
  store_ok s → set_p_param i value fixed s = Ret tt s' → store_ok s'.
Proof.
  intros (Hlen & Hnd & Hlive). rewrite set_p_param_unfold.
  destruct (Cxx.vector_at (p_params s) i) as [p|]; [|done].
  destruct (heap s !! p) as [d|] eqn:Hd; [|done].
  destruct (Cxx.vector_at (is_fixed s) i) as [f|]; [|done].
  intros [= <-]. split_and!; simpl.
  - by rewrite length_insert.
  - done.
  - eapply Forall_impl; [exact Hlive|]. intros q [e He]. simpl.
    destruct (decide (p = q)) as [<-|Hne].
    + rewrite lookup_insert_eq. eauto.
    + rewrite lookup_insert_ne by done. eauto.
Qed.

(** The loop of [clear_data]: the cells of the parameters from index [k] on
    are released one by one. *)
Lemma clear_loop s k rest :
  p_params s = take k (p_params s) ++ rest → length (take k (p_params s)) = k →
  (Z.of_nat (length (p_params s)) ≤ Cxx.SIZE_MAX)%Z →
  NoDup rest → Forall (λ p, is_Some (heap s !! p)) rest →
  ∃ h, for_each (Z.of_nat <$> seq k (length rest))
         (λ i _, let! v := gets p_params in
                 let! q := defined (Cxx.vector_at v i) in
                 delete_double q) tt s
       = Ret tt (set_heap h s).
Proof.
  revert s k. induction rest as [|p rest IH]; intros s k Hsplit Hk Hsz Hnd Hlive.
  - exists (heap s). simpl. unfold ret. by destruct s.
  - apply NoDup_cons in Hnd as [Hnotin Hnd].
    apply Forall_cons in Hlive as [[d Hd] Hlive].
    assert (p_params s !! k = Some p) as Hp.
    { rewrite Hsplit, lookup_app_r by lia. by rewrite Hk, Nat.sub_diag. }
    assert (k < length (p_params s)) as Hlt by (by eapply lookup_lt_Some).
    destruct (IH (set_heap (delete p (heap s)) s) (S k)) as [h Hh]; simpl.
    + rewrite (take_S_r _ _ p) by done. rewrite <- app_assoc. done.
    + rewrite length_take. lia.
    + done.
    + done.
    + rewrite Forall_forall in Hlive. apply Forall_forall. intros q Hq.
      destruct (Hlive q Hq) as [e He].
      rewrite lookup_delete_ne; [eauto|]. by intros ->.
    + exists h. mrun. rewrite vector_at_nat, Hp by lia.
      unfold delete_double at 1. unfold bind at 1. rewrite Hd.
      exact Hh.
Qed.

(** [clear_data] returns on a store that is in order, and leaves it empty. *)
Lemma clear_data_run s :
  store_ok s → size_fits_int s →
  ∃ h, clear_data s =
       Ret tt {| clist := []; debugMode := debugMode s; heap := h;
                 p_params := []; is_fixed := []; console := console s |}.
Proof.
  intros (Hlen & Hnd & Hlive) Hs.
  destruct (clear_loop s 0 (p_params s)) as [h Hh];
    [by rewrite take_0|by rewrite take_0| |done|done|].
  { unfold size_fits_int, Cxx.INT_MAX, Cxx.SIZE_MAX in *. lia. }
  exists h. unfold clear_data, for_int. mrun.
  rewrite decide_True by (unfold size_fits_int in Hs; lia).
  rewrite int_range_1. erewrite bind_Ret by exact Hh. done.
Qed.

(** Whenever [clear_data] returns, both vectors are empty. *)
Lemma clear_data_empties s s' :
  clear_data s = Ret tt s' → p_params s' = [] ∧ is_fixed s' = [].
Proof.
  unfold clear_data. mrun.
  intros (a & s1 & _ & Hrest)%bind_inv_Ret. revert Hrest.
  unfold System_clear. mrun. unfold modify. by intros [= <-].
Qed.

Lemma store_step_lengths c s s' :
  length (p_params s) = length (is_fixed s) →
  store_step c s = Ret tt s' →
  length (p_params s') = length (is_fixed s').
Proof.
  intros Hlen. destruct c as [value fixed|i value fixed|]; simpl.
  - erewrite bind_Ret by apply push_p_param_run. unfold ret.
    intros [= <-]. simpl. rewrite !length_app, Hlen. done.
  - rewrite set_p_param_unfold.
    destruct (Cxx.vector_at (p_params s) i) as [p|]; [|done].
    destruct (heap s !! p) as [d|]; [|done].
    destruct (Cxx.vector_at (is_fixed s) i) as [f|]; [|done].
    intros [= <-]. simpl. by rewrite length_insert.
  - intros [-> ->]%clear_data_empties. done.
Qed.

(** A call that stays within a store in order returns, and leaves the store
    in order. *)
Lemma store_step_ok c s :
  store_ok s → size_fits_int s → store_call_ok s c →
  ∃ s', store_step c s = Ret tt s' ∧ store_ok s'.
Proof.
  intros Hok Hs Hc. destruct c as [value fixed|i value fixed|]; simpl.
  - eexists. erewrite bind_Ret by apply push_p_param_run. split; [done|].
    eapply push_p_param_ok; [exact Hok|apply push_p_param_run].
  - destruct Hc as [_ Hi].
    destruct (set_p_param_run s i value fixed Hok Hs Hi) as (p & _ & Hrun).
    eexists. split; [exact Hrun|]. eapply set_p_param_ok; [exact Hok|exact Hrun].
  - destruct (clear_data_run s Hok Hs) as [h Hrun].
    eexists. split; [exact Hrun|]. split_and!; [done|constructor|constructor].
Qed.

Lemma get_p_param_at s i p d :
  Cxx.vector_at (p_params s) i = Some p → heap s !! p = Some d →
  get_p_param i s = Ret d s.
Proof.
  intros Hp Hd. unfold get_p_param, load. mrun. rewrite Hp. mrun. by rewrite Hd.
Qed.

Lemma get_is_fixed_at s i f :
  Cxx.vector_at (is_fixed s) i = Some f → get_is_fixed i s = Ret f s.
Proof. intros Hf. unfold get_is_fixed. mrun. by rewrite Hf. Qed.

(** C1 (what the code does instead of failing): an access through
    [get_p_param], [set_p_param] or [get_is_fixed] with an index outside the
    store, negative, or at least [size()] as it is for every index once
    [clear_data] has emptied the store, is an unchecked [operator[]] outside
    the vector: undefined behaviour, and no exception is thrown. *)
Theorem accessor_outside_store_is_undefined s i value fixed :
  Cxx.is_int i → size_fits_int s →
  length (is_fixed s) = length (p_params s) →
  ¬ allocated s i →
  (get_p_param i s = Undefined ∧
   set_p_param i value fixed s = Undefined ∧
   get_is_fixed i s = Undefined) ∧
  (∀ what s', get_p_param i s ≠ Throw what s' ∧
              set_p_param i value fixed s ≠ Throw what s' ∧
              get_is_fixed i s ≠ Throw what s').
Proof.
  intros Hi Hs Hlen Hout.
  destruct (vector_at_outside (p_params s) i Hi Hs Hout) as [Hp _].
  destruct (vector_at_outside (is_fixed s) i Hi) as [Hf _];
    [by rewrite Hlen..|].
  assert (get_p_param i s = Undefined) as Hget
    by (unfold get_p_param; mrun; by rewrite Hp).
  assert (set_p_param i value fixed s = Undefined) as Hset
    by (by rewrite set_p_param_unfold, Hp).
  assert (get_is_fixed i s = Undefined) as Hfix
    by (unfold get_is_fixed; mrun; by rewrite Hf).
  split; [done|]. intros what s'. rewrite Hget, Hset, Hfix. done.
Qed.

(** C8: [push_p_param] returns the size of the store as the index of the new
    parameter (0 on a new object, one more after each push), and
    [get_p_param] and [get_is_fixed] at that index then return the value and
    the flag pushed; after [set_p_param] on a parameter of the store they
    return the value and the flag set. *)
Theorem push_get_and_set_get s value fixed :
  store_ok s → size_fits_int s →
  (∃ s', push_p_param value fixed s = Ret (Z.of_nat (length (p_params s))) s' ∧
         length (p_params s') = S (length (p_params s)) ∧
         get_p_param (Z.of_nat (length (p_params s))) s' = Ret value s' ∧
         get_is_fixed (Z.of_nat (length (p_params s))) s' = Ret fixed s') ∧
  (∀ debug, ∃ s', push_p_param value fixed (GcsSystem_new debug) = Ret 0%Z s') ∧
  (∀ i value' fixed', allocated s i →
     ∃ s', set_p_param i value' fixed' s = Ret tt s' ∧
           get_p_param i s' = Ret value' s' ∧
           get_is_fixed i s' = Ret fixed' s').
Proof.
  intros Hok Hs. pose proof Hok as (Hlen & Hnd & Hlive).
  assert (Z.of_nat (length (p_params s)) ≤ Cxx.SIZE_MAX)%Z as Hsz
    by (unfold size_fits_int, Cxx.INT_MAX, Cxx.SIZE_MAX in *; lia).
  split_and!.
  - eexists. rewrite push_p_param_run, to_int_fits by (unfold size_fits_int in Hs; lia).
    split_and!; [done|..]; simpl.
    + rewrite length_app. simpl. lia.
    + eapply get_p_param_at; simpl.
      * rewrite vector_at_nat by done. by apply list_lookup_middle.
      * apply lookup_insert_eq.
    + eapply get_is_fixed_at; simpl.
      rewrite vector_at_nat by done. by apply list_lookup_middle.
  - intros debug. eexists. rewrite push_p_param_run. done.
  - intros i value' fixed' Hi.
    destruct (set_p_param_run s i value' fixed' Hok Hs Hi) as (p & Hp & Hrun).
    eexists. split; [exact Hrun|].
    destruct (vector_at_inside (p_params s) i Hs Hi) as (Hv & _ & _).
    destruct (vector_at_inside (is_fixed s) i) as (Hf & _ & _);
      [by rewrite Hlen..|].
    split.
    + eapply get_p_param_at; simpl; [by rewrite Hv|apply lookup_insert_eq].
    + eapply get_is_fixed_at; simpl.
      destruct (vector_at_inside (<[Z.to_nat i:=fixed']> (is_fixed s)) i) as (-> & _ & _);
        [by rewrite length_insert, Hlen..|].
      apply list_lookup_insert_eq. unfold allocated in Hi. lia.
Qed.

(** C9: after any sequence of [push_p_param], [set_p_param] and [clear_data]
    on a new object, [p_params] and [is_fixed] have the same length: an
    index has a parameter exactly when it has a flag. *)
Theorem store_vectors_same_length debug cs s' :
  store_run cs (GcsSystem_new debug) = Ret tt s' →
  length (p_params s') = length (is_fixed s') ∧
  (∀ i : nat, is_Some (p_params s' !! i) ↔ is_Some (is_fixed s' !! i)).
Proof.
  assert (∀ s, length (p_params s) = length (is_fixed s) →
               store_run cs s = Ret tt s' →
               length (p_params s') = length (is_fixed s')) as Hgen.
  { induction cs as [|c cs IH]; intros s Hlen; simpl.
    - unfold ret. by intros [= <-].
    - intros ([] & s1 & Hstep & Hrest)%bind_inv_Ret.
      eapply IH; [|exact Hrest]. eapply store_step_lengths; [exact Hlen|exact Hstep]. }
  intros Hrun. assert (Hlen := Hgen (GcsSystem_new debug) eq_refl Hrun). split; [done|].
  intros i. rewrite !lookup_lt_is_Some, Hlen. done.
Qed.

(** Every call of a sequence returns when each stays within the store, and
    the store stays in order. *)
Lemma store_run_ok cs : ∀ s,
  store_ok s → store_calls_ok cs s →
  ∃ s', store_run cs s = Ret tt s' ∧ store_ok s'.
Proof.
  induction cs as [|c cs IH]; intros s Hok Hcs; simpl.
  - eauto.
  - destruct Hcs as (Hc & Hs & Hcs).
    destruct (store_step_ok c s Hok Hs Hc) as (s1 & Hstep & Hok1).
    destruct (IH s1 Hok1 (Hcs s1 Hstep)) as (s' & Hrun & Hok').
    exists s'. split; [|done]. erewrite bind_Ret by exact Hstep. done.
Qed.

(** *** Facts: the geometry builders *)

Lemma pure_ret {A} (a : A) : pure (ret a).
Proof. by intros s. Qed.

Lemma pure_gets {A} (f : GcsSystem → A) : pure (gets f).
Proof. by intros s. Qed.

Lemma pure_throw {A} what : pure (@throw A what).
Proof. by intros s. Qed.

Lemma pure_undefined {A} : pure (@undefined A).
Proof. by intros s. Qed.

Lemma pure_defined {A} (o : option A) : pure (defined o).
Proof. destruct o; [apply pure_ret|apply pure_undefined]. Qed.

Lemma pure_bind {A B} (m : M A) (k : A → M B) :
  pure m → (∀ a, pure (k a)) → pure (bind m k).
Proof.
  intros Hm Hk s. unfold bind. specialize (Hm s).
  destruct (m s) as [a s1|what s1|]; [|done..]. subst s1. apply Hk.
Qed.

Lemma pure_for_each {B} idx (body : Z → B → M B) acc :
  (∀ i b, pure (body i b)) → pure (for_each idx body acc).
Proof.
  intros Hbody. revert acc. induction idx as [|i idx IH]; intros acc; simpl.
  - apply pure_ret.
  - apply pure_bind; [apply Hbody|apply IH].
Qed.

Lemma pure_for_int {B} n step (body : Z → B → M B) acc :
  (∀ i b, pure (body i b)) → pure (for_int n step body acc).
Proof.
  intros Hbody. unfold for_int.
  case_decide; [by apply pure_for_each|apply pure_undefined].
Qed.

Lemma pure_fmap_M {A B} (f : A → B) (m : M A) : pure m → pure (fmap_M f m).
Proof. intros Hm. apply pure_bind; [done|]. intros a. apply pure_ret. Qed.

Lemma pure_p_param_or_fail i : pure (p_param_or_fail i).
Proof.
  apply pure_bind; [apply pure_gets|]. intros v.
  case_decide; [apply pure_throw|apply pure_defined].
Qed.

#[local] Hint Resolve pure_ret pure_gets pure_throw pure_undefined pure_defined
  pure_p_param_or_fail pure_fmap_M : pure.
#[local] Hint Extern 2 (pure (bind _ _)) => apply pure_bind; [|intros ?] : pure.
#[local] Hint Extern 2 (pure (for_int _ _ _ _)) =>
  apply pure_for_int; intros ? ? : pure.

Lemma pure_make_point a b : pure (make_point a b).
Proof. unfold make_point. auto with pure. Qed.

#[local] Hint Resolve pure_make_point : pure.

(** No builder writes to the object. *)
Lemma pure_make c : pure (make c).
Proof.
  destruct c; simpl; apply pure_fmap_M;
    unfold make_line, make_circle, make_ellipse, make_hyperbola, make_parabola,
      make_arc, make_arc_of_ellipse, make_arc_of_parabola,
      make_arc_of_hyperbola, make_bspline, bspline_poles, bspline_params;
    auto 20 with pure.
Qed.

Lemma p_param_or_fail_checked s i :
  size_fits_int s → Cxx.is_int i →
  p_param_or_fail i s = checked (param_ptr s i) s.
Proof.
  intros Hs Hi. unfold p_param_or_fail. mrun.
  destruct (decide (allocated s i)) as [Hin|Hout].
  - destruct (vector_at_inside (p_params s) i Hs Hin) as (Hv & [p Hp] & Hlt).
    rewrite decide_False by done. rewrite Hv, Hp.
    unfold param_ptr. rewrite decide_True by (unfold allocated in Hin; lia).
    by rewrite Hp.
  - destruct (vector_at_outside (p_params s) i Hi Hs Hout) as [_ Hge].
    rewrite decide_True by done.
    apply param_ptr_None in Hout. by rewrite Hout.
Qed.

Lemma bind_checked {A B} (m : M A) (k : A → M B) va (vb : A → option B) s :
  m s = checked va s →
  (∀ a, va = Some a → k a s = checked (vb a) s) →
  bind m k s = checked (va ≫= vb) s.
Proof.
  intros Hm Hk. destruct va as [a|]; simpl.
  - erewrite bind_Ret by exact Hm. by apply Hk.
  - erewrite bind_Throw by exact Hm. done.
Qed.

(** [make_point] returns the point over the two parameters when both are in
    the store, and throws when one is not. *)
Lemma make_point_checked s px_i py_i :
  size_fits_int s → Cxx.is_int px_i → Cxx.is_int py_i →
  make_point px_i py_i s = checked (point_at s px_i py_i) s.
Proof.
  intros Hs Hx Hy. unfold make_point, point_at.
  apply bind_checked; [by apply p_param_or_fail_checked|]. intros x _.
  apply bind_checked; [by apply p_param_or_fail_checked|]. done.
Qed.

Lemma point_at_allocated s a b :
  is_Some (point_at s a b) ↔ allocated s a ∧ allocated s b.
Proof.
  rewrite <- !param_ptr_allocated. unfold point_at.
  destruct (param_ptr s a), (param_ptr s b); simpl;
    rewrite !is_Some_alt; tauto.
Qed.

Lemma guarded_checked {A} (m : M A) v s :
  m s = checked v s → guarded (is_Some v) m s.
Proof.
  unfold guarded. intros ->. rewrite is_Some_alt.
  destruct v as [a|]; simpl; split; [eauto|tauto|tauto|done].
Qed.

Lemma guarded_iff {A} (P Q : Prop) (m : M A) s :
  (P ↔ Q) → guarded P m s → guarded Q m s.
Proof. unfold guarded. intros HPQ [H1 H2]. split; intros ?; [apply H1|apply H2]; tauto. Qed.

Lemma guarded_ret {A} (a : A) s : guarded True (ret a) s.
Proof. split; [eauto|tauto]. Qed.

Lemma guarded_bind {A B} (P Q : Prop) (m : M A) (k : A → M B) s :
  guarded P m s → (∀ a, guarded Q (k a) s) → Decision P →
  guarded (P ∧ Q) (bind m k) s.
Proof.
  intros [Hm1 Hm2] Hk Hdec. split.
  - intros [HP HQ]. destruct (Hm1 HP) as [a Ha].
    erewrite bind_Ret by exact Ha. by apply Hk.
  - intros Hnot. destruct (decide P) as [HP|HP].
    + destruct (Hm1 HP) as [a Ha]. erewrite bind_Ret by exact Ha.
      apply Hk. tauto.
    + erewrite bind_Throw by exact (Hm2 HP). done.
Qed.

Lemma guarded_fmap_M {A B} (P : Prop) (f : A → B) (m : M A) s :
  Decision P → guarded P m s → guarded P (fmap_M f m) s.
Proof.
  intros HP Hm. apply (guarded_iff (P ∧ True)); [tauto|].
  apply guarded_bind; [done| |done]. intros a. apply guarded_ret.
Qed.

Lemma guarded_p_param_or_fail s i :
  size_fits_int s → Cxx.is_int i → guarded (allocated s i) (p_param_or_fail i) s.
Proof.
  intros Hs Hi. eapply guarded_iff; [apply param_ptr_allocated|].
  by apply guarded_checked, p_param_or_fail_checked.
Qed.

Lemma guarded_make_point s a b :
  size_fits_int s → Cxx.is_int a → Cxx.is_int b →
  guarded (allocated s a ∧ allocated s b) (make_point a b) s.
Proof.
  intros Hs Ha Hb. eapply guarded_iff; [apply point_at_allocated|].
  by apply guarded_checked, make_point_checked.
Qed.

(** The loop of [bspline_params] from index [k] on. *)
Lemma bspline_params_loop s params_i :
  size_fits_int s → Forall Cxx.is_int params_i →
  (Z.of_nat (length params_i) ≤ Cxx.SIZE_MAX)%Z →
  ∀ rest k acc, drop k params_i = rest →
    for_each (Z.of_nat <$> seq k (length rest))
      (λ i params,
         let! a := defined (Cxx.vector_at params_i i) in
         let! p := p_param_or_fail a in
         ret (params ++ [p])) acc s
    = checked ((acc ++.) <$> mapM (param_ptr s) rest) s.
Proof.
  intros Hs Hint Hsz. induction rest as [|a rest IH]; intros k acc Hdrop.
  - simpl. by rewrite app_nil_r.
  - assert (params_i !! k = Some a) as Hk.
    { rewrite <- (Nat.add_0_r k), <- lookup_drop, Hdrop. done. }
    assert (k < length params_i) as Hlt by (by eapply lookup_lt_Some).
    assert (Cxx.is_int a) as Ha.
    { rewrite Forall_forall in Hint. eapply Hint, list_elem_of_lookup_2, Hk. }
    assert (drop (S k) params_i = rest) as Hdrop'.
    { apply (drop_S _ _ _) in Hk. rewrite Hk in Hdrop. by injection Hdrop. }
    cbn [length seq fmap list_fmap for_each]. mrun.
    rewrite vector_at_nat, Hk by lia. mrun.
    pose proof (p_param_or_fail_checked s a Hs Ha) as Hrun.
    cbn [mapM]. destruct (param_ptr s a) as [p|];
      [|by erewrite bind_Throw by exact Hrun].
    erewrite bind_Ret by exact Hrun. mrun.
    rewrite (IH (S k) (acc ++ [p]) Hdrop'). simpl.
    destruct (mapM (param_ptr s) rest) as [ps|]; simpl; [|done].
    by rewrite <- app_assoc.
Qed.

(** [bspline_params] returns the cells of the parameters when all are in the
    store, and throws when one is not. *)
Lemma bspline_params_checked s params_i :
  size_fits_int s → Forall Cxx.is_int params_i →
  (Z.of_nat (length params_i) ≤ Cxx.INT_MAX)%Z →
  bspline_params params_i s = checked (mapM (param_ptr s) params_i) s.
Proof.
  intros Hs Hint Hsz. unfold bspline_params, for_int.
  rewrite decide_True by lia. rewrite int_range_1.
  rewrite (bspline_params_loop s params_i Hs Hint) with (k := 0) (rest := params_i);
    [|unfold Cxx.INT_MAX, Cxx.SIZE_MAX in *; lia|done].
  by destruct (mapM (param_ptr s) params_i).
Qed.

(** The loop of [bspline_poles] from index [2 * k] on is the recursion on
    what is left of the vector. *)
Lemma bspline_poles_loop s poles_xy_i :
  size_fits_int s → Forall Cxx.is_int poles_xy_i →
  (Z.of_nat (length poles_xy_i) ≤ Cxx.INT_MAX)%Z →
  ∀ m k acc, m = Nat.div2 (S (length (drop (k * 2) poles_xy_i))) →
    for_each ((λ j : nat, Z.of_nat (j * 2)) <$> seq k m)
      (λ i poles,
         let! a := defined (Cxx.vector_at poles_xy_i i) in
         let! b := defined (Cxx.vector_at poles_xy_i (i + 1)) in
         let! p := make_point a b in
         ret (poles ++ [p])) acc s
    = poles_from s (drop (k * 2) poles_xy_i) acc.
Proof.
  intros Hs Hint Hsz.
  assert (∀ j a, poles_xy_i !! j = Some a → Cxx.is_int a) as Hint'.
  { intros j a Hj. rewrite Forall_forall in Hint.
    eapply Hint, list_elem_of_lookup_2, Hj. }
  induction m as [|m IH]; intros k acc Hm.
  - destruct (drop (k * 2) poles_xy_i) as [|a [|b rest]]; [done|done|].
    simpl in Hm. lia.
  - destruct (drop (k * 2) poles_xy_i) as [|a [|b rest]] eqn:Hdrop;
      [done|..].
    + (* one index left: the read of its pair runs past the end *)
      assert (poles_xy_i !! (k * 2) = Some a) as Ha.
      { rewrite <- (Nat.add_0_r (k * 2)), <- lookup_drop, Hdrop. done. }
      assert (poles_xy_i !! (k * 2 + 1) = None) as Hb.
      { rewrite <- lookup_drop, Hdrop. done. }
      assert (k * 2 < length poles_xy_i) as Hlt by (by eapply lookup_lt_Some).
      cbn [seq fmap list_fmap for_each poles_from]. mrun.
      rewrite vector_at_nat, Ha by (unfold Cxx.INT_MAX, Cxx.SIZE_MAX in *; lia).
      mrun. replace (Z.of_nat (k * 2) + 1)%Z with (Z.of_nat (k * 2 + 1)) by lia.
      rewrite vector_at_nat, Hb by (unfold Cxx.INT_MAX, Cxx.SIZE_MAX in *; lia).
      done.
    + assert (poles_xy_i !! (k * 2) = Some a) as Ha.
      { rewrite <- (Nat.add_0_r (k * 2)), <- lookup_drop, Hdrop. done. }
      assert (poles_xy_i !! (k * 2 + 1) = Some b) as Hb.
      { rewrite <- lookup_drop, Hdrop. done. }
      assert (k * 2 + 1 < length poles_xy_i) as Hlt by (by eapply lookup_lt_Some).
      assert (drop (S k * 2) poles_xy_i = rest) as Hdrop'.
      { replace (S k * 2) with (k * 2 + 2) by lia.
        rewrite <- drop_drop, Hdrop. done. }
      cbn [seq fmap list_fmap for_each poles_from]. mrun.
      rewrite vector_at_nat, Ha by (unfold Cxx.INT_MAX, Cxx.SIZE_MAX in *; lia).
      mrun. replace (Z.of_nat (k * 2) + 1)%Z with (Z.of_nat (k * 2 + 1)) by lia.
      rewrite vector_at_nat, Hb by (unfold Cxx.INT_MAX, Cxx.SIZE_MAX in *; lia).
      mrun.
      pose proof (make_point_checked s a b Hs (Hint' _ _ Ha) (Hint' _ _ Hb)) as Hrun.
      destruct (point_at s a b) as [p|];
        [|by erewrite bind_Throw by exact Hrun].
      erewrite bind_Ret by exact Hrun. mrun.
      rewrite (IH (S k) (acc ++ [p])); [by rewrite Hdrop'|].
      rewrite Hdrop'.
      change (S m = S (Nat.div2 (S (length rest)))) in Hm. congruence.
Qed.

Lemma bspline_poles_run s poles_xy_i :
  size_fits_int s → Forall Cxx.is_int poles_xy_i →
  (Z.of_nat (length poles_xy_i) + 1 ≤ Cxx.INT_MAX)%Z →
  bspline_poles poles_xy_i s = poles_from s poles_xy_i [].
Proof.
  intros Hs Hint Hsz. unfold bspline_poles, for_int.
  rewrite decide_True by lia. unfold Cxx.int_range.
  rewrite (bspline_poles_loop s poles_xy_i Hs Hint) with (k := 0); [done|lia|].
  change (drop (0 * 2) poles_xy_i) with poles_xy_i.
  rewrite Nat.div2_div. f_equal. lia.
Qed.

Lemma list_pair_ind {A} (P : list A → Prop) :
  P [] → (∀ a, P [a]) → (∀ a b l, P l → P (a :: b :: l)) → ∀ l, P l.
Proof.
  intros Hnil Hone Hstep l.
  enough (P l ∧ ∀ a, P (a :: l)) as [? _] by done.
  induction l as [|b l [IH1 IH2]]; [by split|]. split; [apply IH2|].
  intros a. by apply Hstep.
Qed.

(** With an even number of pole indices the loop returns the points of the
    pairs, or throws when an index is not in the store. *)
Lemma poles_from_even s poles_xy_i : ∀ acc,
  Nat.even (length poles_xy_i) = true →
  poles_from s poles_xy_i acc =
  checked ((acc ++.) <$> mapM (λ ab, point_at s ab.1 ab.2) (pole_pairs poles_xy_i)) s.
Proof.
  induction poles_xy_i as [|a|a b rest IH] using list_pair_ind; intros acc Heven.
  - simpl. by rewrite app_nil_r.
  - done.
  - cbn [poles_from pole_pairs mapM]. simpl.
    destruct (point_at s a b) as [p|]; [|done]. simpl.
    rewrite IH by done.
    destruct (mapM _ (pole_pairs rest)) as [ps|]; simpl; [|done].
    by rewrite <- app_assoc.
Qed.

(** With an odd number of pole indices, all in the store, the loop reads
    past the end of the vector. *)
Lemma poles_from_odd s poles_xy_i : ∀ acc,
  Nat.even (length poles_xy_i) = false →
  Forall (allocated s) poles_xy_i →
  poles_from s poles_xy_i acc = Undefined.
Proof.
  induction poles_xy_i as [|a|a b rest IH] using list_pair_ind;
    intros acc Hodd Hall; [done|done|].
  apply Forall_cons in Hall as [Ha Hall]. apply Forall_cons in Hall as [Hb Hall].
  cbn [poles_from].
  destruct (point_at s a b) as [p|] eqn:Hp.
  - by apply IH.
  - assert (is_Some (point_at s a b)) as [? ?] by (by apply point_at_allocated).
    congruence.
Qed.

Lemma pole_pairs_allocated s poles_xy_i :
  Nat.even (length poles_xy_i) = true →
  Forall (is_Some ∘ (λ ab, point_at s ab.1 ab.2)) (pole_pairs poles_xy_i) ↔
  Forall (allocated s) poles_xy_i.
Proof.
  induction poles_xy_i as [|a|a b rest IH] using list_pair_ind; intros Heven.
  - simpl. split; constructor.
  - done.
  - simpl. rewrite !Forall_cons, IH by done. simpl.
    rewrite point_at_allocated. tauto.
Qed.

Lemma pole_pairs_length poles_xy_i n :
  length poles_xy_i = 2 * n → length (pole_pairs poles_xy_i) = n.
Proof.
  revert n. induction poles_xy_i as [|a|a b rest IH] using list_pair_ind;
    intros n Hn; simpl in *.
  - lia.
  - lia.
  - destruct n as [|n]; [lia|]. f_equal. apply IH. lia.
Qed.

Lemma pole_pairs_lookup poles_xy_i i a b :
  pole_pairs poles_xy_i !! i = Some (a, b) →
  poles_xy_i !! (2 * i) = Some a ∧ poles_xy_i !! (2 * i + 1) = Some b.
Proof.
  revert i. induction poles_xy_i as [|c|c d rest IH] using list_pair_ind;
    intros i; [done|done|].
  destruct i as [|i]; simpl.
  - by intros [= -> ->].
  - intros Hi. apply IH in Hi as [Ha Hb].
    replace (i + S (i + 0)) with (S (2 * i)) by lia.
    replace (i + S (i + 0) + 1) with (S (2 * i + 1)) by lia. done.
Qed.

Lemma guarded_bspline_params s params_i :
  size_fits_int s → Forall Cxx.is_int params_i →
  (Z.of_nat (length params_i) ≤ Cxx.INT_MAX)%Z →
  guarded (Forall (allocated s) params_i) (bspline_params params_i) s.
Proof.
  intros Hs Hint Hsz.
  apply (guarded_iff (is_Some (mapM (param_ptr s) params_i))).
  - rewrite mapM_is_Some. apply Forall_iff. intros i. apply param_ptr_allocated.
  - by apply guarded_checked, bspline_params_checked.
Qed.

Lemma guarded_bspline_poles s poles_xy_i :
  size_fits_int s → Forall Cxx.is_int poles_xy_i →
  (Z.of_nat (length poles_xy_i) + 1 ≤ Cxx.INT_MAX)%Z →
  Nat.even (length poles_xy_i) = true →
  guarded (Forall (allocated s) poles_xy_i) (bspline_poles poles_xy_i) s.
Proof.
  intros Hs Hint Hsz Heven.
  eapply guarded_iff; [|eapply guarded_checked].
  2: { rewrite bspline_poles_run by done. by apply poles_from_even. }
  rewrite fmap_is_Some, mapM_is_Some. by apply pole_pairs_allocated.
Qed.

Ltac guard_steps :=
  repeat first
    [ apply guarded_ret
    | eapply guarded_bind;
      [ first [ apply guarded_make_point | apply guarded_p_param_or_fail
              | apply guarded_bspline_poles | apply guarded_bspline_params ];
        assumption
      | intros ?
      | apply _ ] ].

(** A builder whose arguments are in the store returns, and one with an
    argument outside it throws; for [make_bspline], when the pole indices
    come in pairs. *)
Lemma guarded_make c s :
  size_fits_int s → call_fits_int c →
  Nat.even (length (poles_of c)) = true →
  guarded (Forall (allocated s) (indices c)) (make c) s.
Proof.
  intros Hs [Hint Hlen] Heven.
  destruct c; simpl in *; (apply guarded_fmap_M; [apply _|]).
  11: {
    repeat (apply Forall_cons in Hint as [? Hint]).
    apply Forall_app in Hint as [Hps Hint].
    apply Forall_app in Hint as [Hws Hks].
    rewrite !length_app in Hlen.
    assert (Z.of_nat (length poles_xy_i) + 1 ≤ Cxx.INT_MAX)%Z by lia.
    assert (Z.of_nat (length weights_i) ≤ Cxx.INT_MAX)%Z by lia.
    assert (Z.of_nat (length knots_i) ≤ Cxx.INT_MAX)%Z by lia.
    eapply guarded_iff; [|unfold make_bspline; guard_steps].
    rewrite !Forall_cons, !Forall_app. tauto. }
  all: repeat (apply Forall_cons in Hint as [? Hint]).
  all: eapply guarded_iff;
    [|unfold make_line, make_circle, make_ellipse, make_hyperbola,
        make_parabola, make_arc, make_arc_of_ellipse, make_arc_of_parabola,
        make_arc_of_hyperbola; guard_steps].
  all: rewrite !Forall_cons, Forall_nil; tauto.
Qed.

(** With the pole indices of [make_bspline] in even number, so that no read
    is outside a vector: a builder with an argument that is no index of the
    store throws "parameter index outside range", out of the call, and one
    whose arguments all are returns; either way the object is as it was
    found. *)
Lemma make_checks_every_index c s :
  size_fits_int s → call_fits_int c →
  Nat.even (length (poles_of c)) = true →
  (Exists (λ i, ¬ allocated s i) (indices c) →
     make c s = Throw index_outside_range s) ∧
  (Forall (allocated s) (indices c) → ∃ g, make c s = Ret g s) ∧
  pure (make c).
Proof.
  intros Hs Hc Heven. destruct (guarded_make c s Hs Hc Heven) as [Hret Hthrow].
  split_and!; [|done|apply pure_make].
  intros Hex. apply Hthrow. intros Hall.
  apply Exists_exists in Hex as (i & Hi & Hout).
  rewrite Forall_forall in Hall. by apply Hout, Hall.
Qed.

(** C10: [make_bspline] takes the pole indices two by two: from [2 * n] of
    them, all in the store, it builds [n] poles, the [i]-th over the
    parameters of indices [poles_xy_i[2 * i]] and [poles_xy_i[2 * i + 1]];
    from an odd number of them the last turn of the loop reads
    [poles_xy_i] one past its end, which is undefined. *)
Theorem make_bspline_pairs_poles s startx_i starty_i endx_i endy_i
    poles_xy_i weights_i knots_i mult degree periodic :
  let c := call_make_bspline startx_i starty_i endx_i endy_i
             poles_xy_i weights_i knots_i mult degree periodic in
  size_fits_int s → call_fits_int c → Forall (allocated s) (indices c) →
  (∀ n, length poles_xy_i = 2 * n →
     ∃ bs, make_bspline startx_i starty_i endx_i endy_i
             poles_xy_i weights_i knots_i mult degree periodic s = Ret bs s ∧
           length (BSpline_poles bs) = n ∧
           ∀ i, i < n →
             ∃ a b x y,
               poles_xy_i !! (2 * i) = Some a ∧
               poles_xy_i !! (2 * i + 1) = Some b ∧
               param_ptr s a = Some x ∧ param_ptr s b = Some y ∧
               BSpline_poles bs !! i = Some {| Point_x := x; Point_y := y |}) ∧
  (Nat.even (length poles_xy_i) = false →
     make_bspline startx_i starty_i endx_i endy_i
       poles_xy_i weights_i knots_i mult degree periodic s = Undefined).
Proof.
  intros c Hs [Hint Hlen] Hall. subst c. simpl in Hint, Hlen, Hall.
  repeat (apply Forall_cons in Hint as [? Hint]).
  apply Forall_app in Hint as [Hps Hint].
  apply Forall_app in Hint as [Hws Hks].
  repeat (apply Forall_cons in Hall as [? Hall]).
  apply Forall_app in Hall as [Haps Hall].
  apply Forall_app in Hall as [Haws Haks].
  rewrite !length_app in Hlen.
  assert (is_Some (point_at s startx_i starty_i)) as [start Hstart]
    by (by apply point_at_allocated).
  assert (is_Some (point_at s endx_i endy_i)) as [end_ Hend]
    by (by apply point_at_allocated).
  assert (make_point startx_i starty_i s = Ret start s) as Hrun1
    by (by rewrite make_point_checked, Hstart).
  assert (make_point endx_i endy_i s = Ret end_ s) as Hrun2
    by (by rewrite make_point_checked, Hend).
  assert (bspline_poles poles_xy_i s = poles_from s poles_xy_i []) as Hrun3
    by (apply bspline_poles_run; [done|done|lia]).
  unfold make_bspline.
  split.
  - intros n Hn.
    assert (Nat.even (length poles_xy_i) = true) as Heven.
    { apply Nat.even_spec. by exists n. }
    assert (is_Some (mapM (λ ab, point_at s ab.1 ab.2) (pole_pairs poles_xy_i)))
      as [poles Hpoles] by (by apply mapM_is_Some, pole_pairs_allocated).
    assert (is_Some (mapM (param_ptr s) weights_i)) as [weights Hweights].
    { apply mapM_is_Some. eapply Forall_impl; [exact Haws|].
      intros i. apply param_ptr_allocated. }
    assert (is_Some (mapM (param_ptr s) knots_i)) as [knots Hknots].
    { apply mapM_is_Some. eapply Forall_impl; [exact Haks|].
      intros i. apply param_ptr_allocated. }
    rewrite poles_from_even, Hpoles in Hrun3 by done.
    erewrite bind_Ret by exact Hrun1. erewrite bind_Ret by exact Hrun2.
    erewrite bind_Ret by exact Hrun3.
    erewrite bind_Ret
      by (rewrite bspline_params_checked, Hweights by (done || lia); done).
    erewrite bind_Ret
      by (rewrite bspline_params_checked, Hknots by (done || lia); done).
    eexists. split; [done|]. simpl.
    apply mapM_Some in Hpoles.
    split.
    + rewrite <- (Forall2_length _ _ _ Hpoles). by apply pole_pairs_length.
    + intros i Hi.
      assert (is_Some (pole_pairs poles_xy_i !! i)) as [[a b] Hab].
      { apply lookup_lt_is_Some. by rewrite (pole_pairs_length _ n). }
      destruct (Forall2_lookup_l _ _ _ _ _ Hpoles Hab) as (p & Hp & Hat).
      apply pole_pairs_lookup in Hab as [Ha Hb].
      simpl in Hat. unfold point_at in Hat.
      destruct (param_ptr s a) as [x|] eqn:Hx; [|done].
      destruct (param_ptr s b) as [y|] eqn:Hy; [|done].
      simpl in Hat. injection Hat as <-.
      exists a, b, x, y. done.
  - intros Hodd.
    rewrite poles_from_odd in Hrun3 by done.
    erewrite bind_Ret by exact Hrun1. erewrite bind_Ret by exact Hrun2.
    by erewrite bind_Undefined by exact Hrun3.
Qed.

(** [p_param_or_fail] tests every index: it returns the cell of the
    parameter when the index is in the store and throws otherwise, for a
    negative index too, since the comparison with [size()] is unsigned. *)
Theorem p_param_or_fail_tests_index s i :
  size_fits_int s → Cxx.is_int i →
  (allocated s i →
     ∃ p, p_params s !! Z.to_nat i = Some p ∧ p_param_or_fail i s = Ret p s) ∧
  (¬ allocated s i → p_param_or_fail i s = Throw index_outside_range s).
Proof.
  intros Hs Hi. rewrite p_param_or_fail_checked by done. split.
  - intros Hin. pose proof Hin as [p Hp]%param_ptr_allocated.
    rewrite Hp. exists p. split; [|done].
    unfold param_ptr in Hp. by case_decide.
  - intros Hout%param_ptr_None. by rewrite Hout.
Qed.

(** [set_p_param] changes one parameter: the value and the flag of every
    other parameter of the store are as before, every parameter having a
    cell of its own. *)
Theorem set_p_param_keeps_others s i j value fixed :
  store_ok s → size_fits_int s → allocated s i → allocated s j → i ≠ j →
  ∃ s' d f,
    set_p_param i value fixed s = Ret tt s' ∧
    get_p_param j s = Ret d s ∧ get_p_param j s' = Ret d s' ∧
    get_is_fixed j s = Ret f s ∧ get_is_fixed j s' = Ret f s'.
Proof.
  intros Hok Hs Hi Hj Hne. pose proof Hok as (Hlen & Hnd & Hlive).
  destruct (set_p_param_run s i value fixed Hok Hs Hi) as (p & Hp & Hrun).
  destruct (vector_at_inside (p_params s) j Hs Hj) as (Hvj & [q Hq] & _).
  destruct (vector_at_inside (is_fixed s) j) as (Hfj & [f Hf] & _);
    [by rewrite Hlen..|].
  assert (is_Some (heap s !! q)) as [d Hd].
  { rewrite Forall_forall in Hlive. eapply Hlive, list_elem_of_lookup_2, Hq. }
  assert (Z.to_nat i ≠ Z.to_nat j) as Hne'
    by (unfold allocated in Hi, Hj; lia).
  assert (p ≠ q) as Hpq.
  { intros ->. apply Hne'. by eapply NoDup_lookup. }
  eexists _, d, f. split; [exact Hrun|]. split_and!.
  - eapply get_p_param_at; [by rewrite Hvj|done].
  - eapply get_p_param_at; simpl; [by rewrite Hvj|by rewrite lookup_insert_ne].
  - eapply get_is_fixed_at. by rewrite Hfj.
  - eapply get_is_fixed_at; simpl.
    destruct (vector_at_inside (<[Z.to_nat i:=fixed]> (is_fixed s)) j) as (-> & _ & _);
      [by rewrite length_insert, Hlen..|].
    by rewrite list_lookup_insert_ne.
Qed.

(** *** Facts: solving *)

(** The loop of [solve_system] from index [k] on adds the cells of the
    parameters that are not fixed, in the order of the indices. *)
Lemma solve_loop s :
  length (is_fixed s) = length (p_params s) →
  (Z.of_nat (length (p_params s)) ≤ Cxx.SIZE_MAX)%Z →
  ∀ m k acc, k + m = length (p_params s) →
    for_each (Z.of_nat <$> seq k m)
      (λ i solved_p_params,
         let! f := gets is_fixed in
         let! fixed := defined (Cxx.vector_at f i) in
         if negb fixed then
           let! v := gets p_params in
           let! p := defined (Cxx.vector_at v i) in
           ret (solved_p_params ++ [p])
         else ret solved_p_params) acc s
    = Ret (acc ++ omap (λ i, p_params s !! i)
                    (filter (λ i, is_fixed s !! i = Some false) (seq k m))) s.
Proof.
  intros Hlen Hsz. induction m as [|m IH]; intros k acc Hk.
  - simpl. by rewrite app_nil_r.
  - assert (is_Some (is_fixed s !! k)) as [f Hf]
      by (apply lookup_lt_is_Some; lia).
    assert (is_Some (p_params s !! k)) as [p Hp]
      by (apply lookup_lt_is_Some; lia).
    cbn [seq fmap list_fmap for_each]. mrun.
    rewrite vector_at_nat, Hf by lia. destruct f; cbn [negb]; mrun.
    + rewrite IH by lia.
      rewrite filter_cons_False by (rewrite Hf; congruence). done.
    + rewrite vector_at_nat, Hp by lia. mrun. rewrite IH by lia.
      rewrite filter_cons_True by done. cbn [omap list_omap]. rewrite Hp.
      by rewrite <- app_assoc.
Qed.

(** [solve_system] calls [solve] once, with the cells of the parameters that
    are not fixed, on an object with the same store. *)
Lemma solve_system_run solve algorithm s :
  length (is_fixed s) = length (p_params s) → size_fits_int s →
  ∃ s', same_store s s' ∧
        solve_system solve algorithm s = solve (free_params s) true algorithm s'.
Proof.
  intros Hlen Hs. unfold solve_system, for_int. mrun.
  rewrite decide_True by (unfold size_fits_int in Hs; lia).
  rewrite int_range_1.
  erewrite bind_Ret; cycle 1.
  { apply solve_loop; [done| |done].
    unfold size_fits_int, Cxx.INT_MAX, Cxx.SIZE_MAX in *. lia. }
  mrun. fold (free_indices s). fold (free_params s). simpl.
  repeat case_decide; unfold console_log; mrun;
    (eexists; split; [|reflexivity]; by unfold same_store).
Qed.

Lemma filter_seq_increasing (P : nat → Prop) `{!∀ i, Decision (P i)} m : ∀ k,
  StronglySorted lt (filter P (seq k m)).
Proof.
  induction m as [|m IH]; intros k; [constructor|].
  cbn [seq]. destruct (decide (P k)).
  - rewrite filter_cons_True by done. constructor; [apply IH|].
    apply Forall_forall. intros i [_ Hi%elem_of_seq]%list_elem_of_filter. lia.
  - rewrite filter_cons_False by done. apply IH.
Qed.

(** C3: [solve_system] passes to the solver of the base class the cells of
    exactly the parameters whose flag in [is_fixed] is false, in increasing
    order of their indices; a parameter whose flag is true is not passed. *)
Theorem solve_passes_free_parameters solve algorithm s :
  length (is_fixed s) = length (p_params s) → size_fits_int s →
  (∃ s', same_store s s' ∧
         solve_system solve algorithm s = solve (free_params s) true algorithm s') ∧
  Forall2 (λ i p, p_params s !! i = Some p) (free_indices s) (free_params s) ∧
  (∀ i, i ∈ free_indices s ↔
        i < length (p_params s) ∧ is_fixed s !! i = Some false) ∧
  StronglySorted lt (free_indices s).
Proof.
  intros Hlen Hs. split_and!.
  - by apply solve_system_run.
  - unfold free_params.
    assert (Forall (λ i, i < length (p_params s)) (free_indices s)) as Hin.
    { apply Forall_forall. intros i [_ Hi%elem_of_seq]%list_elem_of_filter. lia. }
    induction Hin as [|i l Hi _ IH]; [constructor|].
    apply lookup_lt_is_Some in Hi as [p Hp].
    cbn [omap list_omap]. rewrite Hp. by constructor.
  - intros i. unfold free_indices. rewrite list_elem_of_filter, elem_of_seq.
    split; [intros [? ?]|intros [? ?]]; split; (done || lia).
  - apply filter_seq_increasing.
Qed.

(** C4 (against the solver of the base class as the spec describes it): with
    a registered constraint that is temporary, a solve runs sequential
    quadratic programming whatever algorithm is asked for; with none it runs
    the algorithm asked for. *)
Theorem temporary_constraint_forces_SQP run algorithm s :
  length (is_fixed s) = length (p_params s) → size_fits_int s →
  ∃ s', same_store s s' ∧
    (Exists (λ c, temporary c = true) (clist s) →
       solve_system (System_solve run) algorithm s = run SQP (free_params s) s') ∧
    (Forall (λ c, temporary c = false) (clist s) →
       solve_system (System_solve run) algorithm s =
       run (Requested algorithm) (free_params s) s').
Proof.
  intros Hlen Hs.
  destruct (solve_system_run (System_solve run) algorithm s Hlen Hs)
    as (s' & Hsame & ->).
  exists s'. split; [done|]. destruct Hsame as (_ & _ & _ & Hclist).
  unfold System_solve, effective_algorithm. mrun. rewrite Hclist.
  split.
  - intros (c & Hc & Htemp)%Exists_exists.
    assert (existsb temporary (clist s) = true) as ->; [|done].
    apply existsb_exists. exists c. by rewrite <- list_elem_of_In.
  - intros Hnone.
    destruct (existsb temporary (clist s)) eqn:Hex; [|done].
    apply existsb_exists in Hex as (c & Hc%list_elem_of_In & Htemp).
    rewrite Forall_forall in Hnone. specialize (Hnone c Hc). congruence.
Qed.

Lemma two_parameters_pushed debug v0 v1 :
  store_run [call_push_p_param v0 false; call_push_p_param v1 true]
    (GcsSystem_new debug) = Ret tt (two_parameters debug v0 v1).
Proof. reflexivity. Qed.

Lemma two_parameters_ok debug v0 v1 : store_ok (two_parameters debug v0 v1).
Proof.
  split_and!.
  - done.
  - apply NoDup_cons. split; [|apply NoDup_singleton].
    by intros ?%list_elem_of_singleton.
  - repeat constructor; by eexists.
Qed.

(** *** More of the class: what the rest of the parameter API and the
    builders do *)

(** The cell of the parameter of index [i] (0 when there is none). *)
Definition cell (s : GcsSystem) (i : Z) : ptr := default 0 (param_ptr s i).

(** The point over the cells of the parameters [px_i] and [py_i]. *)
Definition point_of (s : GcsSystem) (px_i py_i : Z) : Point :=
  {| Point_x := cell s px_i; Point_y := cell s py_i |}.

(** The object that a builder makes over the cells of its arguments: which
    argument ends up in which member. *)
Definition geometry_of (s : GcsSystem) (c : make_call) : geometry :=
  match c with
  | call_make_point px_i py_i => a_Point (point_of s px_i py_i)
  | call_make_line p1x_i p1y_i p2x_i p2y_i =>
      a_Line {| Line_p1 := point_of s p1x_i p1y_i;
                Line_p2 := point_of s p2x_i p2y_i |}
  | call_make_circle cx_i cy_i rad_i =>
      a_Circle {| Circle_center := point_of s cx_i cy_i;
                  Circle_rad := cell s rad_i |}
  | call_make_ellipse cx_i cy_i focus1x_i focus1y_i radmin_i =>
      an_Ellipse {| Ellipse_center := point_of s cx_i cy_i;
                    Ellipse_focus1 := point_of s focus1x_i focus1y_i;
                    Ellipse_radmin := cell s radmin_i |}
  | call_make_hyperbola cx_i cy_i focus1x_i focus1y_i radmin_i =>
      a_Hyperbola {| Hyperbola_center := point_of s cx_i cy_i;
                     Hyperbola_focus1 := point_of s focus1x_i focus1y_i;
                     Hyperbola_radmin := cell s radmin_i |}
  | call_make_parabola vertexx_i vertexy_i focus1x_i focus1y_i =>
      a_Parabola {| Parabola_vertex := point_of s vertexx_i vertexy_i;
                    Parabola_focus1 := point_of s focus1x_i focus1y_i |}
  | call_make_arc cx_i cy_i startx_i starty_i endx_i endy_i
      startangle_i endangle_i rad_i =>
      an_Arc {| Arc_center := point_of s cx_i cy_i;
                Arc_start := point_of s startx_i starty_i;
                Arc_end := point_of s endx_i endy_i;
                Arc_startAngle := cell s startangle_i;
                Arc_endAngle := cell s endangle_i;
                Arc_rad := cell s rad_i |}
  | call_make_arc_of_ellipse cx_i cy_i focus1x_i focus1y_i
      startx_i starty_i endx_i endy_i startangle_i endangle_i radmin_i =>
      an_ArcOfEllipse
        {| ArcOfEllipse_center := point_of s cx_i cy_i;
           ArcOfEllipse_focus1 := point_of s focus1x_i focus1y_i;
           ArcOfEllipse_start := point_of s startx_i starty_i;
           ArcOfEllipse_end := point_of s endx_i endy_i;
           ArcOfEllipse_startAngle := cell s startangle_i;
           ArcOfEllipse_endAngle := cell s endangle_i;
           ArcOfEllipse_radmin := cell s radmin_i |}
  | call_make_arc_of_parabola vertexx_i vertexy_i focusx_i focusy_i
      startx_i starty_i endx_i endy_i startangle_i endangle_i =>
      an_ArcOfParabola
        {| ArcOfParabola_vertex := point_of s vertexx_i vertexy_i;
           ArcOfParabola_focus1 := point_of s focusx_i focusy_i;
           ArcOfParabola_start := point_of s startx_i starty_i;
           ArcOfParabola_end := point_of s endx_i endy_i;
           ArcOfParabola_startAngle := cell s startangle_i;
           ArcOfParabola_endAngle := cell s endangle_i |}
  | call_make_arc_of_hyperbola cx_i cy_i focus1x_i focus1y_i
      startx_i starty_i endx_i endy_i startangle_i endangle_i radmin_i =>
      an_ArcOfHyperbola
        {| ArcOfHyperbola_center := point_of s cx_i cy_i;
           ArcOfHyperbola_focus1 := point_of s focus1x_i focus1y_i;
           ArcOfHyperbola_start := point_of s startx_i starty_i;
           ArcOfHyperbola_end := point_of s endx_i endy_i;
           ArcOfHyperbola_startAngle := cell s startangle_i;
           ArcOfHyperbola_endAngle := cell s endangle_i;
           ArcOfHyperbola_radmin := cell s radmin_i |}
  | call_make_bspline startx_i starty_i endx_i endy_i
      poles_xy_i weights_i knots_i mult degree periodic =>
      a_BSpline
        {| BSpline_start := point_of s startx_i starty_i;
           BSpline_end := point_of s endx_i endy_i;
           BSpline_poles :=
             (λ ab, point_of s ab.1 ab.2) <$> pole_pairs poles_xy_i;
           BSpline_weights := cell s <$> weights_i;
           BSpline_knots := cell s <$> knots_i;
           BSpline_mult := mult;
           BSpline_degree := degree;
           BSpline_periodic := periodic |}
  end.

(** The parameters of the store after a sequence of calls on a store of [n]
    parameters: the pushes since the last [clear_data]. *)
Fixpoint live_pushes (cs : list store_call) (n : nat) : nat :=
  match cs with
  | [] => n
  | call_push_p_param _ _ :: rest => live_pushes rest (S n)
  | call_set_p_param _ _ _ :: rest => live_pushes rest n
  | call_clear_data :: rest => live_pushes rest 0
  end.

(** *** Facts: the snapshot *)

Lemma load_at s p d : heap s !! p = Some d → load p s = Ret d s.
Proof. intros Hd. unfold load. mrun. by rewrite Hd. Qed.

Lemma load_dangling s p : heap s !! p = None → load p s = Undefined.
Proof. intros Hd. unfold load. mrun. by rewrite Hd. Qed.

(** The loop of [get_p_params] from index [k] on reads the cells of the
    parameters left, in order. *)
Lemma get_p_params_loop s rest :
  (Z.of_nat (length (p_params s)) ≤ Cxx.SIZE_MAX)%Z →
  Forall (λ p, is_Some (heap s !! p)) rest →
  ∃ values, Forall2 (λ p d, heap s !! p = Some d) rest values ∧
    ∀ k acc, drop k (p_params s) = rest →
      for_each (Z.of_nat <$> seq k (length rest))
        (λ i p,
           let! v := gets p_params in
           let! q := defined (Cxx.vector_at v i) in
           let! d := load q in
           ret (p ++ [d])) acc s
      = Ret (acc ++ values) s.
Proof.
  intros Hsz. induction rest as [|q rest IH]; intros Hlive.
  - exists []. split; [constructor|]. intros k acc _. simpl. by rewrite app_nil_r.
  - apply Forall_cons in Hlive as [[d Hd] Hlive].
    destruct (IH Hlive) as (values & Hvalues & Hloop).
    exists (d :: values). split; [by constructor|]. intros k acc Hdrop.
    assert (p_params s !! k = Some q) as Hk.
    { rewrite <- (Nat.add_0_r k), <- lookup_drop, Hdrop. done. }
    assert (k < length (p_params s)) as Hlt by (by eapply lookup_lt_Some).
    assert (drop (S k) (p_params s) = rest) as Hdrop'.
    { apply (drop_S _ _ _) in Hk. rewrite Hk in Hdrop. by injection Hdrop. }
    cbn [length seq fmap list_fmap for_each]. mrun.
    rewrite vector_at_nat, Hk by lia. mrun.
    erewrite bind_Ret by (by apply load_at). mrun.
    rewrite (Hloop (S k) (acc ++ [d]) Hdrop'). by rewrite <- app_assoc.
Qed.

(** [get_p_params] returns the values of all the parameters, in the order of
    their indices: its entry [i] is what [get_p_param(i)] returns.  The
    object is left as found. *)
Theorem get_p_params_is_snapshot s :
  store_ok s → size_fits_int s →
  ∃ values,
    get_p_params s = Ret values s ∧
    length values = length (p_params s) ∧
    ∀ i, allocated s i →
      ∃ d, values !! Z.to_nat i = Some d ∧ get_p_param i s = Ret d s.
Proof.
  intros (Hlen & Hnd & Hlive) Hs.
  assert (Z.of_nat (length (p_params s)) ≤ Cxx.SIZE_MAX)%Z as Hsz
    by (unfold size_fits_int, Cxx.INT_MAX, Cxx.SIZE_MAX in *; lia).
  destruct (get_p_params_loop s (p_params s) Hsz Hlive) as (values & Hvalues & Hloop).
  exists values. split_and!.
  - unfold get_p_params, for_int. mrun.
    rewrite decide_True by (unfold size_fits_int in Hs; lia).
    rewrite int_range_1. by rewrite (Hloop 0 []).
  - symmetry. by eapply Forall2_length.
  - intros i Hi.
    destruct (vector_at_inside (p_params s) i Hs Hi) as (Hv & [p Hp] & _).
    destruct (Forall2_lookup_l _ _ _ _ _ Hvalues Hp) as (d & Hd & Hheap).
    exists d. split; [done|]. eapply get_p_param_at; [by rewrite Hv|done].
Qed.

(** *** Facts: pushing next to what is there *)

(** [push_p_param] leaves every parameter of the store in the cell it had,
    with its value and its flag. *)
Theorem push_p_param_keeps_others s value fixed j :
  store_ok s → size_fits_int s → allocated s j →
  ∃ index s' d f,
    push_p_param value fixed s = Ret index s' ∧
    param_ptr s' j = param_ptr s j ∧
    get_p_param j s = Ret d s ∧ get_p_param j s' = Ret d s' ∧
    get_is_fixed j s = Ret f s ∧ get_is_fixed j s' = Ret f s'.
Proof.
  intros (Hlen & Hnd & Hlive) Hs Hj.
  destruct (vector_at_inside (p_params s) j Hs Hj) as (Hvj & [q Hq] & _).
  destruct (vector_at_inside (is_fixed s) j) as (Hfj & [f Hf] & _);
    [by rewrite Hlen..|].
  assert (is_Some (heap s !! q)) as [d Hd].
  { rewrite Forall_forall in Hlive. eapply Hlive, list_elem_of_lookup_2, Hq. }
  assert (fresh (dom (heap s)) ≠ q) as Hfresh.
  { intros Heq. pose proof (fresh_cell_unused (heap s)) as Hnone.
    rewrite Heq in Hnone. congruence. }
  assert (0 ≤ j ≤ Cxx.SIZE_MAX)%Z as Hrange
    by (unfold allocated, size_fits_int, Cxx.INT_MAX, Cxx.SIZE_MAX in *; lia).
  eexists _, _, d, f. split; [apply push_p_param_run|]. split_and!.
  - unfold param_ptr. simpl. case_decide; [|done].
    rewrite lookup_app_l; [done|]. unfold allocated in Hj. lia.
  - eapply get_p_param_at; [by rewrite Hvj|done].
  - eapply get_p_param_at; simpl.
    + unfold Cxx.vector_at. rewrite to_size_t_nonneg by done.
      rewrite lookup_app_l; [done|]. unfold allocated in Hj. lia.
    + by rewrite lookup_insert_ne.
  - eapply get_is_fixed_at. by rewrite Hfj.
  - eapply get_is_fixed_at; simpl.
    unfold Cxx.vector_at. rewrite to_size_t_nonneg by done.
    rewrite lookup_app_l; [done|]. unfold allocated in Hj. lia.
Qed.

(** *** Facts: clearing *)

Lemma lookup_delete_all (h : gmap nat double) cells p :
  foldl (λ h q, delete q h) h cells !! p =
  if decide (p ∈ cells) then None else h !! p.
Proof.
  revert h. induction cells as [|q cells IH]; intros h; cbn [foldl].
  - case_decide as Hin; [by apply elem_of_nil in Hin|done].
  - rewrite IH. destruct (decide (p = q)) as [->|Hne].
    + rewrite lookup_delete_eq.
      rewrite (decide_True (P := q ∈ q :: cells)) by apply list_elem_of_here.
      by case_decide.
    + rewrite lookup_delete_ne by done.
      destruct (decide (p ∈ cells)) as [Hin|Hout],
               (decide (p ∈ q :: cells)) as [Hin'|Hout']; try done; exfalso.
      * by apply Hout', list_elem_of_further.
      * by apply elem_of_cons in Hin' as [?|?].
Qed.

(** The loop of [clear_data], with the free store that it leaves. *)
Lemma clear_loop_heap rest : ∀ s k,
  p_params s = take k (p_params s) ++ rest → length (take k (p_params s)) = k →
  (Z.of_nat (length (p_params s)) ≤ Cxx.SIZE_MAX)%Z →
  NoDup rest → Forall (λ p, is_Some (heap s !! p)) rest →
  for_each (Z.of_nat <$> seq k (length rest))
    (λ i _, let! v := gets p_params in
            let! q := defined (Cxx.vector_at v i) in
            delete_double q) tt s
  = Ret tt (set_heap (foldl (λ h q, delete q h) (heap s) rest) s).
Proof.
  induction rest as [|p rest IH]; intros s k Hsplit Hk Hsz Hnd Hlive.
  - simpl. unfold ret. by destruct s.
  - apply NoDup_cons in Hnd as [Hnotin Hnd].
    apply Forall_cons in Hlive as [[d Hd] Hlive].
    assert (p_params s !! k = Some p) as Hp.
    { rewrite Hsplit, lookup_app_r by lia. by rewrite Hk, Nat.sub_diag. }
    assert (k < length (p_params s)) as Hlt by (by eapply lookup_lt_Some).
    cbn [length seq fmap list_fmap for_each foldl]. mrun.
    rewrite vector_at_nat, Hp by lia.
    unfold delete_double at 1. unfold bind at 1. rewrite Hd.
    rewrite (IH (set_heap (delete p (heap s)) s) (S k)); simpl; [done|..|done|done|].
    + rewrite (take_S_r _ _ p) by done. rewrite <- app_assoc. done.
    + rewrite length_take. lia.
    + rewrite Forall_forall in Hlive. apply Forall_forall. intros q Hq.
      destruct (Hlive q Hq) as [e He].
      rewrite lookup_delete_ne; [eauto|]. by intros ->.
Qed.

Lemma clear_data_fits s s' : clear_data s = Ret tt s' → size_fits_int s.
Proof.
  unfold clear_data, for_int. mrun. case_decide as Hfits.
  - intros _. unfold size_fits_int. lia.
  - by rewrite bind_Undefined.
Qed.

(** [clear_data] on a store in order returns; this is the state it
    leaves. *)
Lemma clear_data_returns s :
  store_ok s → size_fits_int s →
  clear_data s =
  Ret tt {| clist := []; debugMode := debugMode s;
            heap := foldl (λ h q, delete q h) (heap s) (p_params s);
            p_params := []; is_fixed := []; console := console s |}.
Proof.
  intros (Hlen & Hnd & Hlive) Hs.
  unfold clear_data, for_int. mrun.
  rewrite decide_True by (unfold size_fits_int in Hs; lia).
  rewrite int_range_1. erewrite bind_Ret; cycle 1.
  { apply clear_loop_heap; [by rewrite take_0|by rewrite take_0| |done|done].
    unfold size_fits_int, Cxx.INT_MAX, Cxx.SIZE_MAX in *. lia. }
  reflexivity.
Qed.

(** [clear_data] on a store in order returns with no parameter left: it has
    released the cell of each parameter and no other cell, so that every
    pointer that a builder handed out is dangling; the next push gets
    index 0. *)
Theorem clear_data_releases_cells s :
  store_ok s → size_fits_int s →
  ∃ s',
    clear_data s = Ret tt s' ∧
    p_params s' = [] ∧ is_fixed s' = [] ∧
    (∀ p, heap s' !! p = if decide (p ∈ p_params s) then None else heap s !! p) ∧
    (∀ i, allocated s i → load (cell s i) s' = Undefined) ∧
    params_size s' = Ret 0%Z s' ∧
    (∀ value fixed, ∃ s'', push_p_param value fixed s' = Ret 0%Z s'').
Proof.
  intros Hok Hs. eexists. split; [by apply clear_data_returns|].
  simpl. split_and!; try done.
  - intros p. apply lookup_delete_all.
  - intros i Hi. apply load_dangling. simpl. rewrite lookup_delete_all.
    rewrite decide_True; [done|].
    pose proof Hi as [p Hp]%param_ptr_allocated.
    unfold cell. rewrite Hp. simpl. unfold param_ptr in Hp.
    case_decide; [|done]. by eapply list_elem_of_lookup_2.
  - intros value fixed. eexists. by rewrite push_p_param_run.
Qed.

(** *** Facts: what holds of every object *)

Lemma store_step_cells c s s' :
  store_ok s → dom (heap s) = list_to_set (p_params s) →
  store_step c s = Ret tt s' →
  store_ok s' ∧ dom (heap s') = list_to_set (p_params s').
Proof.
  intros Hok Hdom. destruct c as [value fixed|i value fixed|]; simpl.
  - erewrite bind_Ret by apply push_p_param_run. unfold ret. intros [= <-].
    split; [eapply push_p_param_ok; [exact Hok|apply push_p_param_run]|].
    simpl. rewrite dom_insert_L, list_to_set_app_L, Hdom. simpl.
    rewrite union_empty_r_L. apply (comm_L _).
  - intros Hrun. split; [by eapply set_p_param_ok|]. revert Hrun.
    rewrite set_p_param_unfold.
    destruct (Cxx.vector_at (p_params s) i) as [p|]; [|done].
    destruct (heap s !! p) as [d|] eqn:Hd; [|done].
    destruct (Cxx.vector_at (is_fixed s) i) as [f|]; [|done].
    intros [= <-]. simpl. rewrite dom_insert_L, <- Hdom.
    apply subseteq_union_1_L, singleton_subseteq_l, elem_of_dom. eauto.
  - intros Hrun. pose proof (clear_data_fits _ _ Hrun) as Hs.
    rewrite (clear_data_returns s Hok Hs) in Hrun. injection Hrun as <-.
    split; [split_and!; by constructor|].
    simpl. apply dom_empty_iff_L, map_empty. intros p.
    rewrite lookup_delete_all. case_decide; [done|].
    apply not_elem_of_dom. rewrite Hdom. by rewrite elem_of_list_to_set.
Qed.

(** On an object driven through its parameter API every parameter has a
    live cell of its own, the two vectors go together, and the live cells
    are the cells of the parameters: no parameter dangles, no two share a
    cell, and no cell leaks. *)
Theorem reachable_store_in_order debug cs s' :
  store_run cs (GcsSystem_new debug) = Ret tt s' →
  store_ok s' ∧ dom (heap s') = list_to_set (p_params s').
Proof.
  assert (∀ s, store_ok s → dom (heap s) = list_to_set (p_params s) →
               store_run cs s = Ret tt s' →
               store_ok s' ∧ dom (heap s') = list_to_set (p_params s')) as Hgen.
  { induction cs as [|c cs IH]; intros s Hok Hdom; simpl.
    - unfold ret. by intros [= <-].
    - intros ([] & s1 & Hstep & Hrest)%bind_inv_Ret.
      destruct (store_step_cells c s s1 Hok Hdom Hstep) as [Hok1 Hdom1].
      by eapply IH. }
  apply Hgen; [apply store_ok_new|]. simpl. by rewrite dom_empty_L.
Qed.

(** The size of the store is the number of pushes since the last
    [clear_data], and [params_size] returns it. *)
Theorem store_size_counts_pushes debug cs s' :
  store_run cs (GcsSystem_new debug) = Ret tt s' →
  length (p_params s') = live_pushes cs 0 ∧
  ((Z.of_nat (live_pushes cs 0) ≤ Cxx.INT_MAX)%Z →
   params_size s' = Ret (Z.of_nat (live_pushes cs 0)) s').
Proof.
  assert (∀ s, store_run cs s = Ret tt s' →
               length (p_params s') = live_pushes cs (length (p_params s))) as Hgen.
  { induction cs as [|c cs IH]; intros s; simpl.
    - unfold ret. by intros [= <-].
    - intros ([] & s1 & Hstep & Hrest)%bind_inv_Ret.
      rewrite (IH s1 Hrest). destruct c as [value fixed|i value fixed|];
        simpl in Hstep.
      + erewrite bind_Ret in Hstep by apply push_p_param_run.
        injection Hstep as <-. simpl. rewrite length_app. simpl.
        f_equal. lia.
      + rewrite set_p_param_unfold in Hstep.
        destruct (Cxx.vector_at (p_params s) i) as [p|]; [|done].
        destruct (heap s !! p) as [d|]; [|done].
        destruct (Cxx.vector_at (is_fixed s) i) as [f|]; [|done].
        by injection Hstep as <-.
      + apply clear_data_empties in Hstep as [-> _]. done. }
  intros Hrun. pose proof (Hgen _ Hrun) as Hlen. simpl in Hlen.
  split; [done|]. intros Hfits. unfold params_size, gets.
  rewrite Hlen, to_int_fits; [done|lia].
Qed.

(** *** Facts: what the builders return *)

Lemma param_ptr_cell s i : allocated s i → param_ptr s i = Some (cell s i).
Proof. intros [p Hp]%param_ptr_allocated. unfold cell. by rewrite Hp. Qed.

Lemma p_param_or_fail_cell s i :
  size_fits_int s → Cxx.is_int i → allocated s i →
  p_param_or_fail i s = Ret (cell s i) s.
Proof.
  intros Hs Hi Hin. rewrite p_param_or_fail_checked by done.
  by rewrite param_ptr_cell.
Qed.

Lemma point_at_point_of s a b :
  allocated s a → allocated s b → point_at s a b = Some (point_of s a b).
Proof.
  intros Ha Hb. unfold point_at. by rewrite !param_ptr_cell.
Qed.

Lemma make_point_returns s a b :
  size_fits_int s → Cxx.is_int a → Cxx.is_int b →
  allocated s a → allocated s b →
  make_point a b s = Ret (point_of s a b) s.
Proof.
  intros Hs Ha Hb Hina Hinb. rewrite make_point_checked by done.
  by rewrite point_at_point_of.
Qed.

Lemma bspline_params_returns s params_i :
  size_fits_int s → Forall Cxx.is_int params_i →
  (Z.of_nat (length params_i) ≤ Cxx.INT_MAX)%Z →
  Forall (allocated s) params_i →
  bspline_params params_i s = Ret (cell s <$> params_i) s.
Proof.
  intros Hs Hint Hsz Hall. rewrite bspline_params_checked by done.
  assert (mapM (param_ptr s) params_i = Some (cell s <$> params_i)) as ->; [|done].
  apply mapM_Some. apply Forall2_fmap_r, Forall_Forall2_diag.
  eapply Forall_impl; [exact Hall|]. intros i. apply param_ptr_cell.
Qed.

Lemma bspline_poles_returns s poles_xy_i :
  size_fits_int s → Forall Cxx.is_int poles_xy_i →
  (Z.of_nat (length poles_xy_i) + 1 ≤ Cxx.INT_MAX)%Z →
  Nat.even (length poles_xy_i) = true →
  Forall (allocated s) poles_xy_i →
  bspline_poles poles_xy_i s =
  Ret ((λ ab, point_of s ab.1 ab.2) <$> pole_pairs poles_xy_i) s.
Proof.
  intros Hs Hint Hsz Heven Hall.
  rewrite bspline_poles_run, poles_from_even by done.
  assert (mapM (λ ab, point_at s ab.1 ab.2) (pole_pairs poles_xy_i)
          = Some ((λ ab, point_of s ab.1 ab.2) <$> pole_pairs poles_xy_i)) as ->;
    [|done].
  apply mapM_Some. apply Forall2_fmap_r, Forall_Forall2_diag.
  apply pole_pairs_allocated in Hall; [|done].
  eapply Forall_impl; [exact Hall|]. intros [a b]. simpl.
  intros [Ha Hb]%point_at_allocated. by apply point_at_point_of.
Qed.

Ltac run_builder :=
  repeat (mrun;
          erewrite bind_Ret
            by (first [ apply make_point_returns | apply p_param_or_fail_cell
                      | apply bspline_poles_returns
                      | apply bspline_params_returns ]; assumption)).

(** A builder whose arguments are all indices of the store returns the
    object whose members are the cells of the arguments of the same name
    (for [make_bspline]: the poles over the pole indices two by two, the
    weights and the knots in order, [mult], [degree] and [periodic] as
    passed), with an even number of pole indices. *)
Theorem make_returns_geometry c s :
  size_fits_int s → call_fits_int c →
  Nat.even (length (poles_of c)) = true →
  Forall (allocated s) (indices c) →
  make c s = Ret (geometry_of s c) s.
Proof.
  intros Hs [Hint Hlen] Heven Hall.
  destruct c; simpl in Hint, Hlen, Heven, Hall |- *; unfold fmap_M.
  11: {
    repeat (apply Forall_cons in Hint as [? Hint]).
    apply Forall_app in Hint as [Hps Hint].
    apply Forall_app in Hint as [Hws Hks].
    repeat (apply Forall_cons in Hall as [? Hall]).
    apply Forall_app in Hall as [Haps Hall].
    apply Forall_app in Hall as [Haws Haks].
    rewrite !length_app in Hlen.
    assert (Z.of_nat (length poles_xy_i) + 1 ≤ Cxx.INT_MAX)%Z by lia.
    assert (Z.of_nat (length weights_i) ≤ Cxx.INT_MAX)%Z by lia.
    assert (Z.of_nat (length knots_i) ≤ Cxx.INT_MAX)%Z by lia.
    unfold make_bspline. run_builder. mrun. done. }
  all: repeat (apply Forall_cons in Hint as [? Hint]).
  all: repeat (apply Forall_cons in Hall as [? Hall]).
  all: unfold make_line, make_circle, make_ellipse, make_hyperbola,
         make_parabola, make_arc, make_arc_of_ellipse, make_arc_of_parabola,
         make_arc_of_hyperbola; run_builder; mrun; done.
Qed.

(** A point refers to the parameters, it holds no copy: after
    [set_p_param] on the index of its x, the cell that the point has for x
    holds the value set, and [make_point] on the same indices returns the
    same point. *)
Theorem point_follows_set_p_param s px_i py_i value fixed :
  store_ok s → size_fits_int s → Cxx.is_int px_i → Cxx.is_int py_i →
  allocated s px_i → allocated s py_i →
  ∃ pt s',
    make_point px_i py_i s = Ret pt s ∧
    set_p_param px_i value fixed s = Ret tt s' ∧
    load (Point_x pt) s' = Ret value s' ∧
    make_point px_i py_i s' = Ret pt s'.
Proof.
  intros Hok Hs Hx Hy Hinx Hiny.
  destruct (set_p_param_run s px_i value fixed Hok Hs Hinx) as (p & Hp & Hrun).
  eexists _, _. split; [by apply make_point_returns|].
  split; [exact Hrun|]. split.
  - apply load_at. simpl. unfold cell, param_ptr.
    rewrite decide_True by (unfold allocated in Hinx; lia).
    rewrite Hp. simpl. apply lookup_insert_eq.
  - rewrite make_point_returns by done. done.
Qed.

(** Once [clear_data] has emptied the store no index is left: every builder
    throws, whereas [get_p_param], [set_p_param] and [get_is_fixed] are
    undefined, at every index. *)
Theorem make_after_clear_data_throws c s :
  store_ok s → size_fits_int s → call_fits_int c →
  Nat.even (length (poles_of c)) = true →
  ∃ s',
    clear_data s = Ret tt s' ∧
    make c s' = Throw index_outside_range s' ∧
    ∀ i value fixed, Cxx.is_int i →
      get_p_param i s' = Undefined ∧
      set_p_param i value fixed s' = Undefined ∧
      get_is_fixed i s' = Undefined.
Proof.
  intros Hok Hs Hc Heven.
  destruct (clear_data_run s Hok Hs) as [h Hrun].
  eexists. split; [exact Hrun|]. split.
  - apply guarded_make; [unfold size_fits_int, Cxx.INT_MAX; simpl; lia|done|done|].
    intros Hall.
    assert (∃ i rest, indices c = i :: rest) as (i & rest & Hi)
      by (destruct c; simpl; eauto).
    rewrite Hi in Hall. apply Forall_cons in Hall as [Hin _].
    unfold allocated in Hin. simpl in Hin. lia.
  - intros i value fixed Hi.
    assert (Cxx.vector_at (A := nat) [] i = None ∧
            Cxx.vector_at (A := bool) [] i = None) as [Hp Hf].
    { split; apply vector_at_outside; try done;
        unfold Cxx.INT_MAX; simpl; lia. }
    split_and!.
    + unfold get_p_param. mrun. cbn [p_params]. by rewrite Hp.
    + rewrite set_p_param_unfold. cbn [p_params]. by rewrite Hp.
    + unfold get_is_fixed. mrun. cbn [is_fixed]. by rewrite Hf.
Qed.

(** *** Facts: more on solving *)

(** [solve_system] prints one line, naming the algorithm, when the debug
    mode is [IterationLevel] and the algorithm is one of [DogLeg],
    [LevenbergMarquardt] and [BFGS], and nothing otherwise; apart from the
    console the solver of the base class finds the object as it was. *)
Theorem solve_system_console solve algorithm s :
  length (is_fixed s) = length (p_params s) → size_fits_int s →
  ∃ lines,
    solve_system solve algorithm s =
      solve (free_params s) true algorithm (set_console (console s ++ lines) s) ∧
    (debugMode s ≠ IterationLevel → lines = []) ∧
    (algorithm ≠ DogLeg → algorithm ≠ LevenbergMarquardt → algorithm ≠ BFGS →
       lines = []) ∧
    (debugMode s = IterationLevel → algorithm = DogLeg →
       lines = ["Solving with DogLeg" +:+ newline]) ∧
    (debugMode s = IterationLevel → algorithm ≠ DogLeg →
       algorithm = LevenbergMarquardt →
       lines = ["Solving with LevenbergMarquardt" +:+ newline]) ∧
    (debugMode s = IterationLevel → algorithm ≠ DogLeg →
       algorithm ≠ LevenbergMarquardt → algorithm = BFGS →
       lines = ["Solving with BFGS" +:+ newline]).
Proof.
  intros Hlen Hs.
  assert (set_console (console s ++ []) s = s) as Hsame
    by (rewrite app_nil_r; by destruct s).
  unfold solve_system, for_int. mrun.
  rewrite decide_True by (unfold size_fits_int in Hs; lia).
  rewrite int_range_1.
  erewrite bind_Ret; cycle 1.
  { apply solve_loop; [done| |done].
    unfold size_fits_int, Cxx.INT_MAX, Cxx.SIZE_MAX in *. lia. }
  mrun. fold (free_indices s). fold (free_params s). simpl.
  repeat case_decide; unfold console_log; mrun;
    (eexists; split; [reflexivity|]) || (exists []; rewrite Hsame; split; [reflexivity|]);
    split_and!; intros; congruence.
Qed.

(** With every parameter fixed, and so with no parameter at all, the solver
    of the base class is called with no variable. *)
Theorem solve_system_all_fixed solve algorithm s :
  length (is_fixed s) = length (p_params s) → size_fits_int s →
  Forall (λ f, f = true) (is_fixed s) →
  ∃ s', same_store s s' ∧ solve_system solve algorithm s = solve [] true algorithm s'.
Proof.
  intros Hlen Hs Hall.
  destruct (solve_system_run solve algorithm s Hlen Hs) as (s' & Hsame & Hrun).
  exists s'. split; [done|]. rewrite Hrun.
  assert (free_indices s = []) as Hnone; [|unfold free_params; by rewrite Hnone].
  unfold free_indices. apply elem_of_nil_inv.
  intros i [Hi _]%list_elem_of_filter. apply list_elem_of_lookup_2 in Hi.
  rewrite Forall_forall in Hall. by apply Hall in Hi.
Qed.

(** *** The builders as the compiled code runs them *)

Lemma padded_cons2 over a b rest :
  padded over (a :: b :: rest) = a :: b :: padded over rest.
Proof.
  unfold padded. cbn [length Nat.even]. by destruct (Nat.even (length rest)).
Qed.

Lemma padded_even over l : Nat.even (length (padded over l)) = true.
Proof.
  unfold padded. destruct (Nat.even (length l)) eqn:Heven; [done|].
  rewrite length_app. simpl.
  by rewrite Nat.add_1_r, Nat.even_succ, <- Nat.negb_even, Heven.
Qed.

Lemma Forall_padded (P : Z → Prop) over l :
  Forall P (padded over l) → Forall P l.
Proof.
  unfold padded. destruct (Nat.even (length l)); [done|].
  by intros [? _]%Forall_app.
Qed.

(** The loop as compiled, from index [2 * k] on, is the recursion on what is
    left of the vector with [over] behind it. *)
Lemma bspline_poles_reading_loop over s poles_xy_i :
  size_fits_int s → Forall Cxx.is_int poles_xy_i → Cxx.is_int over →
  (Z.of_nat (length poles_xy_i) ≤ Cxx.INT_MAX)%Z →
  ∀ m k acc, m = Nat.div2 (S (length (drop (k * 2) poles_xy_i))) →
    for_each ((λ j : nat, Z.of_nat (j * 2)) <$> seq k m)
      (λ i poles,
         let! a := defined (Cxx.vector_at poles_xy_i i) in
         let! b := ret (default over (Cxx.vector_at poles_xy_i (i + 1))) in
         let! p := make_point a b in
         ret (poles ++ [p])) acc s
    = poles_from s (padded over (drop (k * 2) poles_xy_i)) acc.
Proof.
  intros Hs Hint Hover Hsz.
  assert (∀ j a, poles_xy_i !! j = Some a → Cxx.is_int a) as Hint'.
  { intros j a Hj. rewrite Forall_forall in Hint.
    eapply Hint, list_elem_of_lookup_2, Hj. }
  induction m as [|m IH]; intros k acc Hm.
  - destruct (drop (k * 2) poles_xy_i) as [|a [|b rest]]; [done|done|].
    simpl in Hm. lia.
  - destruct (drop (k * 2) poles_xy_i) as [|a [|b rest]] eqn:Hdrop;
      [done|..].
    + (* one index left: its pair is read one past the end *)
      assert (poles_xy_i !! (k * 2) = Some a) as Ha.
      { rewrite <- (Nat.add_0_r (k * 2)), <- lookup_drop, Hdrop. done. }
      assert (poles_xy_i !! (k * 2 + 1) = None) as Hb.
      { rewrite <- lookup_drop, Hdrop. done. }
      assert (k * 2 < length poles_xy_i) as Hlt by (by eapply lookup_lt_Some).
      assert (m = 0) as -> by (simpl in Hm; lia).
      change (padded over [a]) with [a; over].
      cbn [seq fmap list_fmap for_each poles_from]. mrun.
      rewrite vector_at_nat, Ha by (unfold Cxx.INT_MAX, Cxx.SIZE_MAX in *; lia).
      mrun. replace (Z.of_nat (k * 2) + 1)%Z with (Z.of_nat (k * 2 + 1)) by lia.
      rewrite vector_at_nat, Hb by (unfold Cxx.INT_MAX, Cxx.SIZE_MAX in *; lia).
      cbn [default].
      pose proof (make_point_checked s a over Hs (Hint' _ _ Ha) Hover) as Hrun.
      destruct (point_at s a over) as [p|];
        [|by erewrite bind_Throw by exact Hrun].
      erewrite bind_Ret by exact Hrun. by mrun.
    + assert (poles_xy_i !! (k * 2) = Some a) as Ha.
      { rewrite <- (Nat.add_0_r (k * 2)), <- lookup_drop, Hdrop. done. }
      assert (poles_xy_i !! (k * 2 + 1) = Some b) as Hb.
      { rewrite <- lookup_drop, Hdrop. done. }
      assert (k * 2 + 1 < length poles_xy_i) as Hlt by (by eapply lookup_lt_Some).
      assert (drop (S k * 2) poles_xy_i = rest) as Hdrop'.
      { replace (S k * 2) with (k * 2 + 2) by lia.
        rewrite <- drop_drop, Hdrop. done. }
      rewrite padded_cons2.
      cbn [seq fmap list_fmap for_each poles_from]. mrun.
      rewrite vector_at_nat, Ha by (unfold Cxx.INT_MAX, Cxx.SIZE_MAX in *; lia).
      mrun. replace (Z.of_nat (k * 2) + 1)%Z with (Z.of_nat (k * 2 + 1)) by lia.
      rewrite vector_at_nat, Hb by (unfold Cxx.INT_MAX, Cxx.SIZE_MAX in *; lia).
      cbn [default].
      pose proof (make_point_checked s a b Hs (Hint' _ _ Ha) (Hint' _ _ Hb)) as Hrun.
      destruct (point_at s a b) as [p|];
        [|by erewrite bind_Throw by exact Hrun].
      erewrite bind_Ret by exact Hrun. mrun.
      rewrite (IH (S k) (acc ++ [p])); [by rewrite Hdrop'|].
      rewrite Hdrop'.
      change (S m = S (Nat.div2 (S (length rest)))) in Hm. congruence.
Qed.

Lemma bspline_poles_reading_run over s poles_xy_i :
  size_fits_int s → Forall Cxx.is_int poles_xy_i → Cxx.is_int over →
  (Z.of_nat (length poles_xy_i) + 1 ≤ Cxx.INT_MAX)%Z →
  bspline_poles_reading over poles_xy_i s
  = poles_from s (padded over poles_xy_i) [].
Proof.
  intros Hs Hint Hover Hsz. unfold bspline_poles_reading, for_int.
  rewrite decide_True by lia. unfold Cxx.int_range.
  rewrite (bspline_poles_reading_loop over s poles_xy_i Hs Hint Hover)
    with (k := 0); [done|lia|].
  change (drop (0 * 2) poles_xy_i) with poles_xy_i.
  rewrite Nat.div2_div. f_equal. lia.
Qed.

(** With the pole indices in even number no read is past the end, and the
    compiled loop is the loop above. *)
Lemma bspline_poles_reading_even over s poles_xy_i :
  size_fits_int s → Forall Cxx.is_int poles_xy_i → Cxx.is_int over →
  (Z.of_nat (length poles_xy_i) + 1 ≤ Cxx.INT_MAX)%Z →
  Nat.even (length poles_xy_i) = true →
  bspline_poles_reading over poles_xy_i s = bspline_poles poles_xy_i s.
Proof.
  intros Hs Hint Hover Hsz Heven.
  rewrite bspline_poles_reading_run, bspline_poles_run by done.
  unfold padded. by rewrite Heven.
Qed.

Lemma guarded_bspline_poles_reading over s poles_xy_i :
  size_fits_int s → Forall Cxx.is_int poles_xy_i → Cxx.is_int over →
  (Z.of_nat (length poles_xy_i) + 1 ≤ Cxx.INT_MAX)%Z →
  guarded (Forall (allocated s) (padded over poles_xy_i))
    (bspline_poles_reading over poles_xy_i) s.
Proof.
  intros Hs Hint Hover Hsz.
  eapply guarded_iff; [|eapply guarded_checked].
  2: { rewrite bspline_poles_reading_run by done.
       apply poles_from_even, padded_even. }
  rewrite fmap_is_Some, mapM_is_Some.
  apply pole_pairs_allocated, padded_even.
Qed.

Lemma bind_same {A B} (m m' : M A) (k : A → M B) s :
  m s = m' s → bind m k s = bind m' k s.
Proof. unfold bind. by intros ->. Qed.

(** Wherever no read is outside a vector the compiled builders are the
    builders above. *)
Lemma make_reading_even over c s :
  size_fits_int s → call_fits_int c → Cxx.is_int over →
  Nat.even (length (poles_of c)) = true →
  make_reading over c s = make c s.
Proof.
  intros Hs [Hint Hlen] Hover Heven. destruct c; try done.
  simpl in Hint, Hlen, Heven |- *.
  repeat (apply Forall_cons in Hint as [? Hint]).
  apply Forall_app in Hint as [Hps _].
  rewrite !length_app in Hlen.
  unfold fmap_M, make_bspline_reading, make_bspline. mrun.
  pose proof (make_point_checked s startx_i starty_i Hs) as Hrun1.
  destruct (point_at s startx_i starty_i) as [start|];
    [|by rewrite !(bind_Throw _ _ _ _ _ (Hrun1 ltac:(done) ltac:(done)))].
  rewrite !(bind_Ret _ _ _ _ _ (Hrun1 ltac:(done) ltac:(done))). mrun.
  pose proof (make_point_checked s endx_i endy_i Hs) as Hrun2.
  destruct (point_at s endx_i endy_i) as [end_|];
    [|by rewrite !(bind_Throw _ _ _ _ _ (Hrun2 ltac:(done) ltac:(done)))].
  rewrite !(bind_Ret _ _ _ _ _ (Hrun2 ltac:(done) ltac:(done))). mrun.
  apply bind_same, bspline_poles_reading_even; (done || lia).
Qed.

Lemma pure_make_reading over c : pure (make_reading over c).
Proof.
  destruct c; try apply pure_make. simpl. apply pure_fmap_M.
  unfold make_bspline_reading, bspline_poles_reading, bspline_params.
  auto 20 with pure.
Qed.

(** What the compiled builders do: they return when every index that they
    read, [over] included when it is read, is in the store, and throw when
    one is not. *)
Lemma guarded_make_reading over c s :
  size_fits_int s → call_fits_int c → Cxx.is_int over →
  guarded (Forall (allocated s) (indices c) ∧
           Forall (allocated s) (padded over (poles_of c)))
    (make_reading over c) s.
Proof.
  intros Hs Hc Hover.
  assert ((∃ a b c' d ps ws ks mult degree periodic,
             c = call_make_bspline a b c' d ps ws ks mult degree periodic)
          ∨ (make_reading over c = make c ∧ poles_of c = []))
    as [(a & b & c' & d & ps & ws & ks & mult & degree & periodic & ->)|[Hmake Hpoles]]
    by (destruct c; (by right) || (left; by repeat eexists)).
  - destruct Hc as [Hint Hlen]. simpl in Hint, Hlen |- *.
    repeat (apply Forall_cons in Hint as [? Hint]).
    apply Forall_app in Hint as [Hps Hint].
    apply Forall_app in Hint as [Hws Hks].
    rewrite !length_app in Hlen.
    assert (Z.of_nat (length ps) + 1 ≤ Cxx.INT_MAX)%Z by lia.
    assert (Z.of_nat (length ws) ≤ Cxx.INT_MAX)%Z by lia.
    assert (Z.of_nat (length ks) ≤ Cxx.INT_MAX)%Z by lia.
    apply guarded_fmap_M; [apply _|].
    eapply guarded_iff; [|unfold make_bspline_reading].
    2: { eapply guarded_bind; [by apply guarded_make_point|intros ?|apply _].
         eapply guarded_bind; [by apply guarded_make_point|intros ?|apply _].
         eapply guarded_bind;
           [by apply guarded_bspline_poles_reading|intros ?|apply _].
         eapply guarded_bind; [by apply guarded_bspline_params|intros ?|apply _].
         eapply guarded_bind; [by apply guarded_bspline_params|intros ?|apply _].
         apply guarded_ret. }
    rewrite !Forall_cons, !Forall_app.
    pose proof (Forall_padded (allocated s) over ps). tauto.
  - rewrite Hmake, Hpoles.
    eapply guarded_iff; [|apply guarded_make; by rewrite ?Hpoles].
    change (padded over []) with (@nil Z). rewrite Forall_nil. tauto.
Qed.


End GcsSystem.

Arguments Ret {double A} a s.
Arguments Throw {double A} what s.
Arguments Undefined {double A}.

(** ** Facts: property offsets *)
Section GeomParamsFacts.
Import GeomParams.
Context {number : Type}.
Implicit Types (primitive : SketchGeometry number) (key : string).

Lemma declared_not_inherited key :
  key ∈ SketchGeometryProperty → key ∉ Object_prototype.
Proof.
  unfold SketchGeometryProperty. intros Hkey.
  repeat (apply elem_of_cons in Hkey as [->|Hkey]);
    [compute_done..|].
  by apply elem_of_nil in Hkey.
Qed.

(** C2: for a B-spline with [c] control points, [w] weights and [k] knots
    the offsets of [start_x], [start_y], [end_x], [end_y] are
    [2 * c + w + k] plus 0, 1, 2, 3; with 4, 4 and 8 they are 20, 21, 22
    and 23. *)
Theorem bspline_offsets primitive :
  type primitive = bspline →
  let base := 2 * length (control_points primitive)
              + length (weights primitive) + length (knots primitive) in
  (get_property_offset primitive "start_x" = Return (Number (base + 0)) ∧
   get_property_offset primitive "start_y" = Return (Number (base + 1)) ∧
   get_property_offset primitive "end_x" = Return (Number (base + 2)) ∧
   get_property_offset primitive "end_y" = Return (Number (base + 3))) ∧
  (length (control_points primitive) = 4 → length (weights primitive) = 4 →
   length (knots primitive) = 8 →
   get_property_offset primitive "start_x" = Return (Number 20) ∧
   get_property_offset primitive "start_y" = Return (Number 21) ∧
   get_property_offset primitive "end_x" = Return (Number 22) ∧
   get_property_offset primitive "end_y" = Return (Number 23)).
Proof.
  intros Htype base.
  assert (∀ key n, key ∈ ["start_x"; "start_y"; "end_x"; "end_y"] →
            property_offsets bspline !! key = Some n →
            get_property_offset primitive key = Return (Number (base + n))) as Hget.
  { intros key n Hkey Hn. unfold get_property_offset.
    rewrite decide_True by done.
    repeat (apply elem_of_cons in Hkey as [->|Hkey]);
      [..|by apply elem_of_nil in Hkey];
      vm_compute in Hn; injection Hn as <-;
      repeat (case_decide; [discriminate || (do 2 f_equal; subst base; unfold
        bspline_start_x, bspline_start_y, bspline_end_x, bspline_end_y; lia)|]);
      done. }
  split.
  - split_and!; apply Hget; (compute_done) || done.
  - intros Hc Hw Hk. subst base. rewrite Hc, Hw, Hk in Hget.
    split_and!; apply (Hget _ _); (compute_done) || done.
Qed.

Lemma static_offset primitive key n :
  type primitive ≠ bspline →
  property_offsets (type primitive) !! key = Some n →
  get_property_offset primitive key = Return (Number n).
Proof.
  intros Htype Hn. unfold get_property_offset, js_get.
  rewrite decide_False by done. by rewrite Hn.
Qed.

Lemma no_offset primitive key :
  type primitive ≠ bspline →
  property_offsets (type primitive) !! key = None →
  get_property_offset primitive key =
  if decide (key ∈ Object_prototype) then Return (Inherited key)
  else ThrowError (unknown_property key (type primitive)).
Proof.
  intros Htype Hn. unfold get_property_offset, js_get.
  rewrite decide_False by done. rewrite Hn. by case_decide.
Qed.

(** C6: for the kinds other than B-spline the offset of a property is the
    one of the table of the kind, whatever the instance: point x 0, y 1;
    circle radius 0; arc start_angle 0, end_angle 1, radius 2; ellipse and
    hyperbola radmin 0; arc_of_ellipse and arc_of_hyperbola start_angle 0,
    end_angle 1, radmin 2; arc_of_parabola start_angle 0, end_angle 1; for a
    parabola and for a line no property name has an offset. *)
Theorem static_offsets primitive :
  (type primitive = point →
     get_property_offset primitive "x" = Return (Number 0) ∧
     get_property_offset primitive "y" = Return (Number 1)) ∧
  (type primitive = circle →
     get_property_offset primitive "radius" = Return (Number 0)) ∧
  (type primitive = arc →
     get_property_offset primitive "start_angle" = Return (Number 0) ∧
     get_property_offset primitive "end_angle" = Return (Number 1) ∧
     get_property_offset primitive "radius" = Return (Number 2)) ∧
  (type primitive = ellipse ∨ type primitive = hyperbola →
     get_property_offset primitive "radmin" = Return (Number 0)) ∧
  (type primitive = arc_of_ellipse ∨ type primitive = arc_of_hyperbola →
     get_property_offset primitive "start_angle" = Return (Number 0) ∧
     get_property_offset primitive "end_angle" = Return (Number 1) ∧
     get_property_offset primitive "radmin" = Return (Number 2)) ∧
  (type primitive = arc_of_parabola →
     get_property_offset primitive "start_angle" = Return (Number 0) ∧
     get_property_offset primitive "end_angle" = Return (Number 1)) ∧
  (type primitive = parabola ∨ type primitive = line →
     ∀ key,
       (∀ n, get_property_offset primitive key ≠ Return (Number n)) ∧
       (key ∈ SketchGeometryProperty →
          get_property_offset primitive key =
          ThrowError (unknown_property key (type primitive)))).
Proof.
  split_and!.
  1-6: intros Htype; split_and?; apply static_offset;
         destruct Htype as [Htype|Htype] || idtac; rewrite Htype; done.
  intros Htype key.
  assert (type primitive ≠ bspline) as Hnb by (by destruct Htype as [->| ->]).
  assert (property_offsets (type primitive) !! key = None) as Hnone
    by (by destruct Htype as [->| ->]).
  rewrite (no_offset _ _ Hnb Hnone). split.
  - intros n. by case_decide.
  - intros Hkey%declared_not_inherited. by rewrite decide_False.
Qed.

(** C7, for the names that a table does not inherit: a property name that
    the table of the kind does not hold is refused with the error "Unknown
    property ... for primitive <...>", for a B-spline whatever the name, and
    for the other kinds when the name is one of the declared property names
    or, more generally, no name of a member inherited from
    [Object.prototype].  The function reads its two arguments only: it has
    no access to the parameter store. *)
Theorem unknown_property_is_refused primitive key :
  ¬ addressable (type primitive) key →
  type primitive = bspline ∨ key ∈ SketchGeometryProperty ∨ key ∉ Object_prototype →
  get_property_offset primitive key =
  ThrowError (unknown_property key (type primitive)).
Proof.
  intros Hnot Hdom. destruct (decide (type primitive = bspline)) as [Hb|Hnb].
  - unfold get_property_offset. rewrite decide_True by done. rewrite Hb in *.
    repeat (case_decide as Hkey;
            [exfalso; apply Hnot; rewrite Hkey; by eexists|clear Hkey]).
    done.
  - assert (key ∉ Object_prototype) as Hproto.
    { destruct Hdom as [?|[?%declared_not_inherited|?]]; done. }
    rewrite no_offset; [by rewrite decide_False|done|].
    by apply eq_None_not_Some.
Qed.

(** *** More on the tables *)

Ltac table_cases H :=
  unfold property_offsets, bspline_start_x, bspline_start_y, bspline_end_x,
    bspline_end_y in H;
  repeat (apply lookup_insert_Some in H as [[<- H]|[? H]]);
  try (apply lookup_singleton_Some in H as [<- H]);
  try (by rewrite lookup_empty in H).

(** In the table of a kind no two properties have the same offset, and the
    offsets are the numbers below the size of the table. *)
Lemma table_offsets t k1 k2 n :
  property_offsets t !! k1 = Some n →
  (property_offsets t !! k2 = Some n → k1 = k2) ∧
  n < size (property_offsets t).
Proof.
  intros H1. split.
  - intros H2. destruct t; table_cases H1; table_cases H2; congruence.
  - destruct t; table_cases H1; subst n; compute_done.
Qed.

(** A number that [get_property_offset] returns comes from the table of the
    kind, shifted for a B-spline by the size of its arrays. *)
Lemma offset_from_table primitive key n :
  get_property_offset primitive key = Return (Number n) →
  ∃ m, property_offsets (type primitive) !! key = Some m ∧
       n = (if decide (type primitive = bspline)
            then length (control_points primitive) * 2
                 + length (weights primitive) + length (knots primitive)
            else 0) + m.
Proof.
  unfold get_property_offset, js_get. case_decide as Htype.
  - rewrite Htype.
    repeat (case_decide as Hkey; [subst key; intros [= <-]; by eexists|clear Hkey]).
    done.
  - destruct (property_offsets (type primitive) !! key) as [m|]; [|by case_decide].
    intros [= <-]. by eexists.
Qed.

(** Resolution gives a number exactly for the properties that the table of
    the kind holds: for every other name it gives no number, whatever the
    instance. *)
Theorem offset_iff_addressable primitive key :
  (∃ n, get_property_offset primitive key = Return (Number n)) ↔
  addressable (type primitive) key.
Proof.
  split.
  - intros [n (m & Hm & _)%offset_from_table]. by exists m.
  - intros [m Hm]. destruct (decide (type primitive = bspline)) as [Hb|Hnb].
    + rewrite Hb in Hm. unfold get_property_offset. rewrite decide_True by done.
      table_cases Hm; eexists; reflexivity.
    + exists m. by apply static_offset.
Qed.

(** The offsets of an instance are one per property and contiguous: two
    names that resolve to the same number are the same name, and the
    numbers are those from 0, for a B-spline from
    [2 * control points + weights + knots], up to the size of the table of
    the kind. *)
Theorem offsets_distinct_and_contiguous primitive k1 k2 n :
  get_property_offset primitive k1 = Return (Number n) →
  (get_property_offset primitive k2 = Return (Number n) → k1 = k2) ∧
  (type primitive ≠ bspline → n < size (property_offsets (type primitive))) ∧
  (type primitive = bspline →
     2 * length (control_points primitive) + length (weights primitive)
       + length (knots primitive) ≤ n
     < 2 * length (control_points primitive) + length (weights primitive)
       + length (knots primitive) + 4).
Proof.
  intros (m1 & Hm1 & Hn1)%offset_from_table.
  destruct (table_offsets _ _ k2 _ Hm1) as [Hinj Hsize]. split_and!.
  - intros (m2 & Hm2 & Hn2)%offset_from_table. apply Hinj.
    rewrite Hm2. f_equal. lia.
  - intros Hnb. rewrite decide_False in Hn1 by done. lia.
  - intros Hb. rewrite decide_True in Hn1 by done. rewrite Hb in Hsize.
    assert (size (property_offsets bspline) = 4) as Hfour by compute_done.
    lia.
Qed.

End GeomParamsFacts.

(** ** The statements at concrete inputs *)

Ltac fits :=
  unfold size_fits_int, call_fits_int, allocated, Cxx.is_int, Cxx.INT_MIN,
    Cxx.INT_MAX; simpl;
  repeat first [ split | constructor | lia ].

(** C1 at a new object, index 0. *)
Lemma accessor_outside_store_witness :
  (Cxx.is_int 0 ∧ size_fits_int (GcsSystem_new (double := Z) 0) ∧
   ¬ allocated (GcsSystem_new (double := Z) 0) 0) ∧
  get_p_param 0 (GcsSystem_new (double := Z) 0) = Undefined ∧
  set_p_param 0 1%Z false (GcsSystem_new (double := Z) 0) = Undefined ∧
  get_is_fixed 0 (GcsSystem_new (double := Z) 0) = Undefined.
Proof.
  split; [fits|].
  apply (accessor_outside_store_is_undefined (GcsSystem_new (double := Z) 0) 0 1%Z false);
    [fits|fits|reflexivity|fits].
Defined.

(** C1 after [clear_data]: index 0, which had the value 10, is now outside
    the store. *)
Example accessor_after_clear_data :
  get_p_param 0 (two_parameters 0 10%Z 20%Z) = Ret 10%Z (two_parameters 0 10%Z 20%Z) ∧
  ∃ s', clear_data (two_parameters 0 10%Z 20%Z) = Ret tt s' ∧
        params_size s' = Ret 0%Z s' ∧
        get_p_param 0 s' = Undefined ∧
        set_p_param 0 1%Z false s' = Undefined ∧
        get_is_fixed 0 s' = Undefined.
Proof.
  split; [reflexivity|]. eexists. split; [reflexivity|].
  repeat split; reflexivity.
Qed.

(** C3 at a store whose first parameter is free and second is fixed: the
    solver gets the cell of the first alone. *)
Lemma solve_passes_free_parameters_witness :
  free_params (two_parameters 2 10%Z 20%Z) = [0] ∧
  ∃ s', same_store (two_parameters 2 10%Z 20%Z) s' ∧
        solve_system 2 1 0 2 (λ plist _ _, ret (Z.of_nat (length plist))) 2
          (two_parameters 2 10%Z 20%Z)
        = Ret 1%Z s'.
Proof.
  split; [reflexivity|].
  apply (solve_passes_free_parameters 2 1 0 2
           (λ plist _ _, ret (Z.of_nat (length plist))) 2%Z
           (two_parameters 2 10%Z 20%Z)); [reflexivity|fits].
Defined.

(** C4 at a store with one temporary constraint, DogLeg asked for. *)
Lemma temporary_constraint_forces_SQP_witness :
  ∃ s', solve_system 2 1 0 2
          (System_solve (λ alg plist, ret (match alg with SQP => 1 | Requested _ => 0 end)%Z)) 2
          (set_clist [ {| tag := (-1)%Z; driving := true; temporary := true |} ]
             (two_parameters 0 10%Z 20%Z))
        = Ret 1%Z s'.
Proof.
  destruct (temporary_constraint_forces_SQP 2 1 0 2
              (λ alg plist, ret (match alg with SQP => 1 | Requested _ => 0 end)%Z) 2%Z
              (set_clist [ {| tag := (-1)%Z; driving := true; temporary := true |} ]
                 (two_parameters 0 10%Z 20%Z)))
    as (s' & _ & Hsqp & _); [reflexivity|fits|].
  exists s'. apply Hsqp. constructor. reflexivity.
Defined.

(** C8 at a store of two parameters: a push of 30, and a set of index 1. *)
Lemma push_get_and_set_get_witness :
  (∃ s', push_p_param 30%Z false (two_parameters 0 10%Z 20%Z) = Ret 2%Z s' ∧
         get_p_param 2 s' = Ret 30%Z s' ∧ get_is_fixed 2 s' = Ret false s') ∧
  (∃ s', set_p_param 1 40%Z false (two_parameters 0 10%Z 20%Z) = Ret tt s' ∧
         get_p_param 1 s' = Ret 40%Z s' ∧ get_is_fixed 1 s' = Ret false s').
Proof.
  destruct (push_get_and_set_get (two_parameters 0 10%Z 20%Z) 30%Z false)
    as ((s' & Hpush & _ & Hget & Hfixed) & _ & Hset);
    [apply two_parameters_ok|fits|].
  split; [by exists s'|]. apply Hset. fits.
Defined.

(** C9 at a push, a set, a clear and a push. *)
Lemma store_vectors_same_length_witness :
  ∃ s', store_run [call_push_p_param 1%Z false; call_set_p_param 0 2%Z true;
                   call_clear_data; call_push_p_param 3%Z true]
          (GcsSystem_new 0) = Ret tt s' ∧
        length (p_params s') = length (is_fixed s').
Proof.
  eexists. split; [reflexivity|].
  eapply (store_vectors_same_length 0
            [call_push_p_param 1%Z false; call_set_p_param 0 2%Z true;
             call_clear_data; call_push_p_param 3%Z true]).
  reflexivity.
Defined.


(** C10 at four and at three pole indices on a store of two parameters. *)
Lemma make_bspline_pairs_poles_witness :
  (∃ bs, make_bspline 0 1 0 1 [0; 1; 1; 0]%Z [1%Z] [0%Z] [4; 1; 1; 4]%Z 3 false
           (two_parameters 0 10%Z 20%Z) = Ret bs (two_parameters 0 10%Z 20%Z) ∧
         length (BSpline_poles bs) = 2) ∧
  make_bspline 0 1 0 1 [0; 1; 1]%Z [1%Z] [0%Z] [4; 1; 1; 4]%Z 3 false
    (two_parameters 0 10%Z 20%Z) = Undefined.
Proof.
  split.
  - destruct (make_bspline_pairs_poles (two_parameters 0 10%Z 20%Z)
                0 1 0 1 [0; 1; 1; 0]%Z [1%Z] [0%Z] [4; 1; 1; 4]%Z 3 false)
      as [Heven _]; [fits|fits|fits|].
    destruct (Heven 2 eq_refl) as (bs & Hrun & Hlen & _). by exists bs.
  - apply (make_bspline_pairs_poles (two_parameters 0 10%Z 20%Z)
             0 1 0 1 [0; 1; 1]%Z [1%Z] [0%Z] [4; 1; 1; 4]%Z 3 false);
      [fits|fits|fits|reflexivity].
Defined.

(** [p_param_or_fail] at the indices 1 and -1 of a store of two
    parameters. *)
Lemma p_param_or_fail_tests_index_witness :
  p_param_or_fail 1 (two_parameters 0 10%Z 20%Z) = Ret 1 (two_parameters 0 10%Z 20%Z) ∧
  p_param_or_fail (-1) (two_parameters 0 10%Z 20%Z)
    = Throw index_outside_range (two_parameters 0 10%Z 20%Z).
Proof.
  split.
  - destruct (p_param_or_fail_tests_index (two_parameters 0 10%Z 20%Z) 1)
      as [Hin _]; [fits|fits|].
    destruct Hin as (p & Hp & Hrun); [fits|].
    injection Hp as <-. exact Hrun.
  - apply (p_param_or_fail_tests_index (two_parameters 0 10%Z 20%Z) (-1));
      [fits|fits|fits].
Defined.

(** [set_p_param] at index 0 of a store of two parameters leaves the second
    as it was. *)
Lemma set_p_param_keeps_others_witness :
  ∃ s', set_p_param 0 30%Z true (two_parameters 0 10%Z 20%Z) = Ret tt s' ∧
        get_p_param 1 s' = Ret 20%Z s' ∧ get_is_fixed 1 s' = Ret true s'.
Proof.
  destruct (set_p_param_keeps_others (two_parameters 0 10%Z 20%Z) 0 1 30%Z true)
    as (s' & d & f & Hset & Hd & Hd' & Hf & Hf');
    [apply two_parameters_ok|fits|fits|fits|done|].
  exists s'. injection Hd as <-. injection Hf as <-. done.
Defined.

(** C2 at the B-spline of the README. *)
Lemma bspline_offsets_witness :
  GeomParams.get_property_offset GeomParams.example_bspline "start_x"
    = GeomParams.Return (GeomParams.Number 20) ∧
  GeomParams.get_property_offset GeomParams.example_bspline "start_y"
    = GeomParams.Return (GeomParams.Number 21) ∧
  GeomParams.get_property_offset GeomParams.example_bspline "end_x"
    = GeomParams.Return (GeomParams.Number 22) ∧
  GeomParams.get_property_offset GeomParams.example_bspline "end_y"
    = GeomParams.Return (GeomParams.Number 23).
Proof.
  apply (bspline_offsets GeomParams.example_bspline eq_refl); reflexivity.
Defined.

(** C7 as stated fails for a name that the table inherits: "toString" is no
    property of a point, and the call returns the inherited member instead
    of throwing. *)
Lemma inherited_name_counterexample :
  ¬ GeomParams.addressable GeomParams.point "toString" ∧
  GeomParams.get_property_offset (GeomParams.example_of GeomParams.point) "toString"
    = GeomParams.Return (GeomParams.Inherited "toString") ∧
  ¬ ∃ message,
      GeomParams.get_property_offset (GeomParams.example_of GeomParams.point) "toString"
      = GeomParams.ThrowError message.
Proof.
  assert (GeomParams.get_property_offset
            (GeomParams.example_of GeomParams.point) "toString"
          = GeomParams.Return (GeomParams.Inherited "toString")) as Hrun
    by reflexivity.
  split_and!; [|done|].
  - unfold GeomParams.addressable. vm_compute. by intros [? ?].
  - rewrite Hrun. by intros [? ?].
Qed.

(** C7 at the property "x" of a circle and at "nonexistent_property" of a
    line. *)
Lemma unknown_property_is_refused_witness :
  GeomParams.get_property_offset (GeomParams.example_of GeomParams.circle) "x"
    = GeomParams.ThrowError "Unknown property x for primitive <circle>" ∧
  GeomParams.get_property_offset (GeomParams.example_of GeomParams.line)
    "nonexistent_property"
    = GeomParams.ThrowError
        "Unknown property nonexistent_property for primitive <line>".
Proof.
  split.
  - apply (unknown_property_is_refused (GeomParams.example_of GeomParams.circle) "x").
    + unfold GeomParams.addressable. vm_compute. by intros [? ?].
    + right. left. compute_done.
  - apply (unknown_property_is_refused (GeomParams.example_of GeomParams.line)
             "nonexistent_property").
    + unfold GeomParams.addressable. vm_compute. by intros [? ?].
    + right. right. compute_done.
Defined.

(** ** More statements at concrete inputs *)

(** The snapshot of a store of two parameters. *)
Lemma get_p_params_is_snapshot_witness :
  ∃ values,
    get_p_params (two_parameters 0 10%Z 20%Z) = Ret values (two_parameters 0 10%Z 20%Z) ∧
    length values = 2 ∧
    values !! 1 = Some 20%Z.
Proof.
  destruct (get_p_params_is_snapshot (two_parameters 0 10%Z 20%Z))
    as (values & Hrun & Hlen & Hget); [apply two_parameters_ok|fits|].
  exists values. split_and!; [done|done|].
  destruct (Hget 1%Z) as (d & Hd & Hd'); [fits|].
  injection Hd' as <-. exact Hd.
Defined.

(** A push next to two parameters leaves the second as it was. *)
Lemma push_p_param_keeps_others_witness :
  ∃ s', push_p_param 30%Z false (two_parameters 0 10%Z 20%Z) = Ret 2%Z s' ∧
        get_p_param 1 s' = Ret 20%Z s' ∧ get_is_fixed 1 s' = Ret true s'.
Proof.
  destruct (push_p_param_keeps_others (two_parameters 0 10%Z 20%Z) 30%Z false 1)
    as (index & s' & d & f & Hpush & _ & Hd & Hd' & Hf & Hf');
    [apply two_parameters_ok|fits|fits|].
  exists s'. injection Hd as <-. injection Hf as <-.
  split; [|done]. rewrite Hpush. f_equal.
  rewrite push_p_param_run in Hpush. by injection Hpush as <- _.
Defined.

(** [clear_data] on a store of two parameters: the cell that a point had
    for x is released. *)
Lemma clear_data_releases_cells_witness :
  ∃ s', clear_data (two_parameters 0 10%Z 20%Z) = Ret tt s' ∧
        p_params s' = [] ∧ heap s' !! 0 = None ∧
        load (cell (two_parameters 0 10%Z 20%Z) 0) s' = Undefined.
Proof.
  destruct (clear_data_releases_cells (two_parameters 0 10%Z 20%Z))
    as (s' & Hrun & Hp & _ & Hheap & Hload & _);
    [apply two_parameters_ok|fits|].
  exists s'. split_and!; [done|done| |apply Hload; fits].
  rewrite Hheap. reflexivity.
Defined.

(** The object after a push, a set, a clear and two pushes. *)
Lemma reachable_store_in_order_witness :
  ∃ s', store_run [call_push_p_param 1%Z false; call_set_p_param 0 2%Z true;
                   call_clear_data; call_push_p_param 3%Z true;
                   call_push_p_param 4%Z false]
          (GcsSystem_new 0) = Ret tt s' ∧
        store_ok s' ∧ dom (heap s') = list_to_set (p_params s').
Proof.
  eexists. split; [reflexivity|].
  eapply (reachable_store_in_order 0
            [call_push_p_param 1%Z false; call_set_p_param 0 2%Z true;
             call_clear_data; call_push_p_param 3%Z true;
             call_push_p_param 4%Z false]).
  reflexivity.
Defined.

(** The size after the same calls is 2. *)
Lemma store_size_counts_pushes_witness :
  ∃ s', store_run [call_push_p_param 1%Z false; call_set_p_param 0 2%Z true;
                   call_clear_data; call_push_p_param 3%Z true;
                   call_push_p_param 4%Z false]
          (GcsSystem_new 0) = Ret tt s' ∧
        length (p_params s') = 2 ∧ params_size s' = Ret 2%Z s'.
Proof.
  eexists. split; [reflexivity|].
  destruct (store_size_counts_pushes 0
              [call_push_p_param 1%Z false; call_set_p_param 0 2%Z true;
               call_clear_data; call_push_p_param 3%Z true;
               call_push_p_param 4%Z false] _ eq_refl) as [Hlen Hsize].
  split; [exact Hlen|]. apply Hsize. fits.
Defined.

(** [make_parabola(0, 1, 1, 0)] on a store of two parameters: the vertex is
    over the first two arguments, the focus over the last two. *)
Lemma make_returns_geometry_witness :
  make (call_make_parabola 0 1 1 0) (two_parameters 0 10%Z 20%Z)
  = Ret (a_Parabola
           {| Parabola_vertex := {| Point_x := 0; Point_y := 1 |};
              Parabola_focus1 := {| Point_x := 1; Point_y := 0 |} |})
        (two_parameters 0 10%Z 20%Z).
Proof.
  apply (make_returns_geometry (call_make_parabola 0 1 1 0)
           (two_parameters 0 10%Z 20%Z)); [fits|fits|reflexivity|fits].
Defined.

(** A point over the two parameters of a store, then a set of the first. *)
Lemma point_follows_set_p_param_witness :
  ∃ pt s',
    make_point 0 1 (two_parameters 0 10%Z 20%Z) = Ret pt (two_parameters 0 10%Z 20%Z) ∧
    set_p_param 0 30%Z false (two_parameters 0 10%Z 20%Z) = Ret tt s' ∧
    load (Point_x pt) s' = Ret 30%Z s'.
Proof.
  destruct (point_follows_set_p_param (two_parameters 0 10%Z 20%Z) 0 1 30%Z false)
    as (pt & s' & Hmake & Hset & Hload & _);
    [apply two_parameters_ok|fits|fits|fits|fits|fits|].
  by exists pt, s'.
Defined.

(** In debug mode 2, [IterationLevel], a solve with algorithm 1,
    [LevenbergMarquardt], prints its line; in debug mode 0 it prints none. *)
Lemma solve_system_console_witness :
  (∃ lines,
     solve_system 2 1 0 2 (λ _ _ _, gets (λ s, Z.of_nat (length (console s)))) 1
       (two_parameters 2 10%Z 20%Z)
     = Ret 1%Z (set_console lines (two_parameters 2 10%Z 20%Z)) ∧
     lines = ["Solving with LevenbergMarquardt" +:+ newline]) ∧
  solve_system 2 1 0 2 (λ _ _ _, gets (λ s, Z.of_nat (length (console s)))) 1
    (two_parameters 0 10%Z 20%Z)
  = Ret 0%Z (two_parameters 0 10%Z 20%Z).
Proof.
  split.
  - destruct (solve_system_console 2 1 0 2
                (λ _ _ _, gets (λ s, Z.of_nat (length (console s)))) 1%Z
                (two_parameters 2 10%Z 20%Z))
      as (lines & Hrun & _ & _ & _ & Hlm & _); [reflexivity|fits|].
    exists lines. rewrite Hrun, (Hlm eq_refl); [by split|done|done].
  - destruct (solve_system_console 2 1 0 2
                (λ _ _ _, gets (λ s, Z.of_nat (length (console s)))) 1%Z
                (two_parameters 0 10%Z 20%Z))
      as (lines & Hrun & Hquiet & _); [reflexivity|fits|].
    rewrite Hrun, Hquiet; done.
Defined.

(** With both parameters fixed the solver gets no variable. *)
Lemma solve_system_all_fixed_witness :
  ∃ s', solve_system 2 1 0 2 (λ plist _ _, ret (Z.of_nat (length plist))) 2
          (set_is_fixed [true; true] (two_parameters 0 10%Z 20%Z))
        = Ret 0%Z s'.
Proof.
  destruct (solve_system_all_fixed 2 1 0 2
              (λ plist _ _, ret (Z.of_nat (length plist))) 2%Z
              (set_is_fixed [true; true] (two_parameters 0 10%Z 20%Z)))
    as (s' & _ & Hrun); [reflexivity|fits|by repeat constructor|].
  by exists s'.
Defined.

(** The offset 1 of an arc is the one of [end_angle] and of no other
    name. *)
Lemma offsets_distinct_and_contiguous_witness :
  GeomParams.get_property_offset (GeomParams.example_of GeomParams.arc) "end_angle"
    = GeomParams.Return (GeomParams.Number 1) ∧
  ∀ key,
    GeomParams.get_property_offset (GeomParams.example_of GeomParams.arc) key
      = GeomParams.Return (GeomParams.Number 1) →
    "end_angle" = key.
Proof.
  split; [reflexivity|]. intros key.
  apply (offsets_distinct_and_contiguous
           (GeomParams.example_of GeomParams.arc) "end_angle" key 1).
  reflexivity.
Defined.

(** [make_line] and [get_p_param] after [clear_data] on a store of two
    parameters. *)
Lemma make_after_clear_data_throws_witness :
  ∃ s', clear_data (two_parameters 0 10%Z 20%Z) = Ret tt s' ∧
        make (call_make_line 0 1 0 1) s' = Throw index_outside_range s' ∧
        get_p_param 0 s' = Undefined.
Proof.
  destruct (make_after_clear_data_throws (call_make_line 0 1 0 1)
              (two_parameters 0 10%Z 20%Z))
    as (s' & Hrun & Hmake & Hget);
    [apply two_parameters_ok|fits|fits|reflexivity|].
  exists s'. split_and!; [done|done|].
  apply (Hget 0%Z 0%Z false). fits.
Defined.
